(** * Shallow embedding of the AWS CloudWatch Logs exporter
    (exporter/awscloudwatchlogsexporter/exporter.go).

    The development follows the source file from the leaves up:
    - [attrValue] / [attrsValue]: flattening of pdata attribute values into
      Go [interface{}] values;
    - [json_marshal_body]: encoding/json's [json.Marshal] of [cwLogBody],
      with its [omitempty] rules and its failure on NaN / infinite floats;
    - [logToCWLog] / [logsToCWLogs]: translation of records and batches;
    - [getLogPusher]: the two-level pusher registry, with Go's reference
      semantics for the inner maps written out as a small heap;
    - [PushLogs] / [Shutdown]: the exporter's entry points over an abstract
      Pusher collaborator (AddLogEntry / ForceFlush);
    - module [Sched]: the interleaving semantics of concurrent goroutines
      calling [PushLogs] under the exporter's [seqTokenMu] mutex. *)

From Stdlib Require Import Floats ZArith Ascii String List Bool Lia.
From stdpp Require Import base gmap strings list.
Import ListNotations.
Open Scope Z_scope.
Set Warnings "-register-all".

(* ------------------------------------------------------------------ *)
(** ** pdata: attribute values and log records *)

(** [pdata.AttributeValue], dispatched on by [value.Type()].  The Go type
    tag is an integer, so a value of a type outside the switch of
    [attrValue] is modelled by [AVUnknown tag]. *)
Inductive AttributeValue : Type :=
| AVEmpty
| AVString (s : string)
| AVInt (i : Z)
| AVDouble (d : float)
| AVBool (b : bool)
| AVMap (kvs : list (string * AttributeValue))
| AVArray (xs : list AttributeValue)
| AVUnknown (tag : Z).

(** A [pdata.AttributeMap]: the ordered key/value slice that [Range]
    walks. *)
Abbreviation AttributeMap := (list (string * AttributeValue)).

(** [pdata.LogRecord]; trace and span ids are their byte arrays
    ([16]byte / [8]byte), the timestamp the uint64 nanosecond count. *)
Record LogRecord : Type := mkLogRecord {
  lr_Name : string;
  lr_Body : AttributeValue;
  lr_SeverityNumber : Z;
  lr_SeverityText : string;
  lr_DroppedAttributesCount : Z;
  lr_Flags : Z;
  lr_TraceID : list Z;
  lr_SpanID : list Z;
  lr_Attributes : AttributeMap;
  lr_Timestamp : Z
}.

Record InstrumentationLibraryLogs : Type := mkILL {
  ill_Logs : list LogRecord
}.

Record ResourceLogs : Type := mkRL {
  rl_Resource : AttributeMap;
  rl_InstrumentationLibraryLogs : list InstrumentationLibraryLogs
}.

(** [pdata.Logs]: its [ResourceLogs()] slice. *)
Abbreviation Logs := (list ResourceLogs).

(* ------------------------------------------------------------------ *)
(** ** Go [interface{}] values produced by the flattener *)

(** [VNil] is the nil interface; [VMap] a [map[string]interface{}],
    [VArray] a [[]interface{}]. *)
Inductive Val : Type :=
| VNil
| VInt (i : Z)
| VBool (b : bool)
| VDouble (d : float)
| VString (s : string)
| VMap (m : list (string * Val))
| VArray (xs : list Val).

(** Assignment [m[k] = v] on a Go map, kept as an association list:
    an existing key is overwritten in place, a new key is added. *)
Fixpoint go_map_set {A} (k : string) (v : A) (m : list (string * A))
  : list (string * A) :=
  match m with
  | [] => [(k, v)]
  | (k', v') :: r =>
      if String.eqb k k' then (k, v) :: r else (k', v') :: go_map_set k v r
  end.

(** [attrValue] (exporter.go, lines 252-281). *)
Fixpoint attrValue (value : AttributeValue) : Val :=
  match value with
  | AVInt i => VInt i
  | AVBool b => VBool b
  | AVDouble d => VDouble d
  | AVString s => VString s
  | AVMap kvs =>
      VMap ((fix range (kvs : list (string * AttributeValue))
                       (values : list (string * Val)) :=
               match kvs with
               | [] => values
               | (k, v) :: r => range r (go_map_set k (attrValue v) values)
               end) kvs [])
  | AVArray xs =>
      VArray ((fix elems (xs : list AttributeValue) :=
                 match xs with
                 | [] => []
                 | x :: r => attrValue x :: elems r
                 end) xs)
  | AVEmpty => VNil
  | AVUnknown _ => VNil
  end.

(** [attrsValue] (lines 240-250); [None] is the nil map. *)
Definition attrsValue (attrs : AttributeMap) : option (list (string * Val)) :=
  if Nat.eqb (length attrs) 0 then None
  else Some (fold_left (fun out kv => go_map_set kv.1 (attrValue kv.2) out)
                       attrs []).

(* ------------------------------------------------------------------ *)
(** ** encoding/json *)

(** The JSON document produced by [json.Marshal].  The exporter ships its
    text as the event message; decoding that text gives back this tree,
    so the message is represented by the tree itself.  (Go writes map keys
    in sorted order; object key order plays no role below.) *)
Inductive json : Type :=
| JNull
| JBool (b : bool)
| JInt (i : Z)
| JFloat (d : float)
| JString (s : string)
| JArray (xs : list json)
| JObject (fields : list (string * json)).

(** [json.UnsupportedValueError]: raised by the float encoder on NaN and
    on +/-Inf. *)
Inductive MarshalError : Type :=
| UnsupportedValue (d : float).

(** Encoding of an [interface{}] value. *)
Fixpoint marshal_val (v : Val) : MarshalError + json :=
  match v with
  | VNil => inr JNull
  | VInt i => inr (JInt i)
  | VBool b => inr (JBool b)
  | VDouble d =>
      if PrimFloat.is_nan d || PrimFloat.is_infinity d
      then inl (UnsupportedValue d) else inr (JFloat d)
  | VString s => inr (JString s)
  | VMap m =>
      match (fix entries (m : list (string * Val)) :=
               match m with
               | [] => inr []
               | (k, x) :: r =>
                   match marshal_val x with
                   | inl e => inl e
                   | inr j =>
                       match entries r with
                       | inl e => inl e
                       | inr js => inr ((k, j) :: js)
                       end
                   end
               end) m with
      | inl e => inl e
      | inr js => inr (JObject js)
      end
  | VArray xs =>
      match (fix elems (xs : list Val) :=
               match xs with
               | [] => inr []
               | x :: r =>
                   match marshal_val x with
                   | inl e => inl e
                   | inr j =>
                       match elems r with
                       | inl e => inl e
                       | inr js => inr (j :: js)
                       end
                   end
               end) xs with
      | inl e => inl e
      | inr js => inr (JArray js)
      end
  end.

(** [cwLogBody] (lines 197-208).  [cw_Body] is an [interface{}]
    ([VNil] = nil); the two maps are [None] when nil. *)
Record cwLogBody : Type := mkCwLogBody {
  cw_Name : string;
  cw_Body : Val;
  cw_SeverityNumber : Z;
  cw_SeverityText : string;
  cw_DroppedAttributesCount : Z;
  cw_Flags : Z;
  cw_TraceID : string;
  cw_SpanID : string;
  cw_Attributes : option (list (string * Val));
  cw_Resource : option (list (string * Val))
}.

(** One struct field under [omitempty]: encoding/json's [isEmptyValue]
    skips empty strings, 0 integers, nil interfaces and maps of length 0. *)
Definition field_string (tag s : string) : MarshalError + list (string * json) :=
  if String.eqb s EmptyString then inr [] else inr [(tag, JString s)].

Definition field_int (tag : string) (i : Z) : MarshalError + list (string * json) :=
  if Z.eqb i 0 then inr [] else inr [(tag, JInt i)].

Definition field_iface (tag : string) (v : Val) : MarshalError + list (string * json) :=
  match v with
  | VNil => inr []
  | _ => match marshal_val v with
         | inl e => inl e
         | inr j => inr [(tag, j)]
         end
  end.

Definition field_map (tag : string) (m : option (list (string * Val)))
  : MarshalError + list (string * json) :=
  match m with
  | None | Some [] => inr []
  | Some kvs => match marshal_val (VMap kvs) with
                | inl e => inl e
                | inr j => inr [(tag, j)]
                end
  end.

(** The struct encoder: the fields in declaration order; the first
    failing field aborts the encoding. *)
Fixpoint encode_fields (fs : list (MarshalError + list (string * json)))
  : MarshalError + list (string * json) :=
  match fs with
  | [] => inr []
  | inl e :: _ => inl e
  | inr f :: r => match encode_fields r with
                  | inl e => inl e
                  | inr js => inr (f ++ js)
                  end
  end.

(** [json.Marshal(body)] for a [cwLogBody]. *)
Definition json_marshal_body (b : cwLogBody) : MarshalError + json :=
  match encode_fields
          [ field_string "name" (cw_Name b);
            field_iface "body" (cw_Body b);
            field_int "severity_number" (cw_SeverityNumber b);
            field_string "severity_text" (cw_SeverityText b);
            field_int "dropped_attributes_count" (cw_DroppedAttributesCount b);
            field_int "flags" (cw_Flags b);
            field_string "trace_id" (cw_TraceID b);
            field_string "span_id" (cw_SpanID b);
            field_map "attributes" (cw_Attributes b);
            field_map "resource" (cw_Resource b) ] with
  | inl e => inl e
  | inr fs => inr (JObject fs)
  end.

(* ------------------------------------------------------------------ *)
(** ** Record translation *)

(** [pdata.TraceID.IsEmpty] / [SpanID.IsEmpty]: all bytes zero. *)
Definition id_IsEmpty (id : list Z) : bool := forallb (Z.eqb 0) id.

Definition hex_digit (n : Z) : ascii :=
  match String.get (Z.to_nat n) "0123456789abcdef" with
  | Some c => c
  | None => "0"%char
  end.

(** [hex.EncodeToString] of the id bytes, two lower-case digits per byte. *)
Fixpoint hex_encode (bs : list Z) : string :=
  match bs with
  | [] => EmptyString
  | b :: r => String (hex_digit (b / 16)) (String (hex_digit (b mod 16)) (hex_encode r))
  end.

(** [HexString()]: the empty string for an empty id. *)
Definition id_HexString (id : list Z) : string :=
  if id_IsEmpty id then EmptyString else hex_encode id.

(** [cloudwatchlogs.InputLogEvent]: the millisecond timestamp and the
    message. *)
Record InputLogEvent : Type := mkInputLogEvent {
  ile_Timestamp : Z;
  ile_Message : json
}.

(** [int64(x)] of a uint64: two's-complement reinterpretation. *)
Definition int64_of_uint64 (x : Z) : Z :=
  let m := x mod 2 ^ 64 in if m <? 2 ^ 63 then m else m - 2 ^ 64.

(** [time.Millisecond] in nanoseconds. *)
Definition time_Millisecond : Z := 1000000.

(** [logToCWLog] (lines 210-238).  The trace / span fields start as the
    zero string and are set only for a non-empty id; Go's signed division
    truncates towards zero, which is [Z.quot]. *)
Definition logToCWLog (resourceAttrs : option (list (string * Val)))
    (log : LogRecord) : MarshalError + InputLogEvent :=
  let traceID := if negb (id_IsEmpty (lr_TraceID log))
                 then id_HexString (lr_TraceID log) else EmptyString in
  let spanID := if negb (id_IsEmpty (lr_SpanID log))
                then id_HexString (lr_SpanID log) else EmptyString in
  let body := {| cw_Name := lr_Name log;
                 cw_Body := attrValue (lr_Body log);
                 cw_SeverityNumber := lr_SeverityNumber log;
                 cw_SeverityText := lr_SeverityText log;
                 cw_DroppedAttributesCount := lr_DroppedAttributesCount log;
                 cw_Flags := lr_Flags log;
                 cw_TraceID := traceID;
                 cw_SpanID := spanID;
                 cw_Attributes := attrsValue (lr_Attributes log);
                 cw_Resource := resourceAttrs |} in
  match json_marshal_body body with
  | inl err => inl err
  | inr bodyJSON =>
      inr (mkInputLogEvent
             (Z.quot (int64_of_uint64 (lr_Timestamp log)) time_Millisecond)
             bodyJSON)
  end.

(* ------------------------------------------------------------------ *)
(** ** Logger and batch translation *)

Inductive LogLevel : Type := LDebug | LInfo | LError.

(** A line written through the [*zap.Logger]. *)
Abbreviation LogLine := (LogLevel * string)%type.

(** [logsToCWLogs] (lines 164-195): the three nested loops, threading
    [out], [dropped] and the logger output. *)
Definition logsToCWLogs (logger : list LogLine) (ld : Logs)
  : (list InputLogEvent * Z) * list LogLine :=
  if Nat.eqb (length ld) 0 then (([], 0), logger) else
  let '(out, dropped, lg) :=
    fold_left
      (fun acc rl =>
         let resourceAttrs := attrsValue (rl_Resource rl) in
         fold_left
           (fun acc ils =>
              fold_left
                (fun '(out, dropped, lg) log =>
                   match logToCWLog resourceAttrs log with
                   | inl _ => (out, dropped + 1,
                               lg ++ [(LDebug, "Failed to convert to CloudWatch Log")])
                   | inr event => (out ++ [event], dropped, lg)
                   end)
                (ill_Logs ils) acc)
           (rl_InstrumentationLibraryLogs rl) acc)
      ld ([], 0, logger) in
  ((out, dropped), lg).

(* ------------------------------------------------------------------ *)
(** ** The Pusher collaborator *)

(** [cwlogs.Event]: the event handed to [AddLogEntry]. *)
Record Event : Type := mkEvent {
  ev_InputLogEvent : InputLogEvent;
  ev_GeneratedTime : Z
}.

(** The [cwlogs.Pusher] interface together with [cwlogs.NewPusher]; a
    Go [error] is [Some msg], nil is [None].  [PS] is the pusher's own
    state. *)
Class Pusher (PS : Type) := {
  NewPusher : string -> string -> Z -> PS;
  AddLogEntry : PS -> Event -> PS * option string;
  ForceFlush : PS -> PS * option string
}.

(** A pusher's identity: the allocation that [NewPusher] returned. *)
Abbreviation PusherId := nat.
(** The address of a Go map allocated by the registry. *)
Abbreviation Loc := nat.

(** Calls made on pushers, with the outcome each returned. *)
Inductive PusherCall : Type :=
| CallNew (p : PusherId) (logGroup logStream : string)
| CallAdd (p : PusherId) (ev : Event) (err : option string)
| CallFlush (p : PusherId) (err : option string).

(** The [exporter] struct.  [groupStreamToPusherMap] holds references to
    the inner [map[string]cwlogs.Pusher] values, which live in [heap];
    [pushers] is the state of every pusher allocated so far.  [calls] and
    [logger] record the observable effects. *)
Record exporter (PS : Type) : Type := mkExporter {
  LogGroupName : string;
  LogStreamName : string;
  retryCount : Z;
  clock : Z;
  groupStreamToPusherMap : gmap string Loc;
  heap : gmap Loc (gmap string PusherId);
  next_loc : Loc;
  next_pusher : PusherId;
  pushers : gmap PusherId PS;
  logger : list LogLine;
  calls : list PusherCall
}.
Arguments mkExporter {PS}.
Arguments LogGroupName {PS}. Arguments LogStreamName {PS}.
Arguments retryCount {PS}. Arguments clock {PS}.
Arguments groupStreamToPusherMap {PS}. Arguments heap {PS}.
Arguments next_loc {PS}. Arguments next_pusher {PS}.
Arguments pushers {PS}. Arguments logger {PS}. Arguments calls {PS}.

Section Exporter.
Context {PS : Type} `{Pusher PS}.

(** [newCwLogsExporter]: an empty registry. *)
Definition newExporter (group stream : string) (retries now : Z) : exporter PS :=
  mkExporter group stream retries now ∅ ∅ 0%nat 0%nat ∅ [] [].

Definition log_line (e : exporter PS) (l : LogLine) : exporter PS :=
  mkExporter (LogGroupName e) (LogStreamName e) (retryCount e) (clock e)
    (groupStreamToPusherMap e) (heap e) (next_loc e) (next_pusher e)
    (pushers e) (logger e ++ [l]) (calls e).

Definition set_logger (e : exporter PS) (lg : list LogLine) : exporter PS :=
  mkExporter (LogGroupName e) (LogStreamName e) (retryCount e) (clock e)
    (groupStreamToPusherMap e) (heap e) (next_loc e) (next_pusher e)
    (pushers e) lg (calls e).

(** Store the new state of pusher [p] and record the call made on it. *)
Definition pusher_step (e : exporter PS) (p : PusherId) (st : PS)
    (c : PusherCall) : exporter PS :=
  mkExporter (LogGroupName e) (LogStreamName e) (retryCount e) (clock e)
    (groupStreamToPusherMap e) (heap e) (next_loc e) (next_pusher e)
    (<[p := st]> (pushers e)) (logger e) (calls e ++ [c]).

(** [getLogPusher] (lines 146-162).  A missing inner map is allocated at
    a fresh address and stored in the outer map; the new pusher is then
    written through that reference. *)
Definition getLogPusher (e : exporter PS) (logGroup logStream : string)
  : exporter PS * PusherId :=
  let '(e1, l) :=
    match groupStreamToPusherMap e !! logGroup with
    | Some l => (e, l)
    | None =>
        let l := next_loc e in
        (mkExporter (LogGroupName e) (LogStreamName e) (retryCount e) (clock e)
           (<[logGroup := l]> (groupStreamToPusherMap e))
           (<[l := ∅]> (heap e)) (S l) (next_pusher e)
           (pushers e) (logger e) (calls e), l)
    end in
  let streamToPusherMap := default ∅ (heap e1 !! l) in
  match streamToPusherMap !! logStream with
  | Some p => (e1, p)
  | None =>
      let p := next_pusher e1 in
      (mkExporter (LogGroupName e1) (LogStreamName e1) (retryCount e1) (clock e1)
         (groupStreamToPusherMap e1)
         (<[l := <[logStream := p]> streamToPusherMap]> (heap e1))
         (next_loc e1) (S p)
         (<[p := NewPusher logGroup logStream (retryCount e1)]> (pushers e1))
         (logger e1) (calls e1 ++ [CallNew p logGroup logStream]), p)
  end.

(** [cwLogsPusher.AddLogEntry(event)] on pusher [p]. *)
Definition add_log_entry (e : exporter PS) (p : PusherId) (ev : Event)
  : exporter PS * option string :=
  match pushers e !! p with
  | Some st => let '(st', err) := AddLogEntry st ev in
               (pusher_step e p st' (CallAdd p ev err), err)
  | None => (e, None)
  end.

(** [cwLogsPusher.ForceFlush()] on pusher [p]. *)
Definition force_flush (e : exporter PS) (p : PusherId)
  : exporter PS * option string :=
  match pushers e !! p with
  | Some st => let '(st', err) := ForceFlush st in
               (pusher_step e p st' (CallFlush p err), err)
  | None => (e, None)
  end.

(** The body of the [for _, logEvent := range logEvents] loop. *)
Definition add_one (p : PusherId) (e : exporter PS) (logEvent : InputLogEvent)
  : exporter PS :=
  let event := mkEvent logEvent (clock e) in
  let e := log_line e (LDebug, "Adding log event") in
  let '(e, err) := add_log_entry e p event in
  match err with
  | Some _ => log_line e (LError, "Failed ")
  | None => e
  end.

(** The loop itself. *)
Definition add_all (p : PusherId) (logEvents : list InputLogEvent)
    (e : exporter PS) : exporter PS :=
  fold_left (add_one p) logEvents e.

(** [PushLogs] (lines 93-126), the part run while [seqTokenMu] is held. *)
Definition PushLogs (e : exporter PS) (ld : Logs) : exporter PS * option string :=
  let '(e, cwLogsPusher) := getLogPusher e (LogGroupName e) (LogStreamName e) in
  let '((logEvents, _), lg) := logsToCWLogs (logger e) ld in
  let e := set_logger e lg in
  if Nat.eqb (length logEvents) 0 then (e, None) else
  let e := log_line e (LInfo, "Putting log events") in
  let e := add_all cwLogsPusher logEvents e in
  let e := log_line e (LDebug, "Log events are successfully put") in
  let '(e, flushErr) := force_flush e cwLogsPusher in
  match flushErr with
  | Some err =>
      (log_line e (LError, "Error force flushing logs. Skipping to next logPusher."),
       Some err)
  | None => (e, None)
  end.

(** [Shutdown] (lines 136-141): the flush error is dropped. *)
Definition Shutdown (e : exporter PS) : exporter PS * option string :=
  let '(e, logPusher) := getLogPusher e (LogGroupName e) (LogStreamName e) in
  let '(e, _) := force_flush e logPusher in
  (e, None).

End Exporter.

(* ------------------------------------------------------------------ *)
(** ** Concurrent calls to [PushLogs] *)

(** Goroutines calling [PushLogs] interleave at the granularity of the
    operations below.  Each exporter instance [x] has its own
    [seqTokenMu] (a field of the [exporter] struct); [Lock] blocks while
    the mutex is held, [defer Unlock] releases it when [PushLogs]
    returns. *)
Module Sched.

Abbreviation ExpId := nat.
Abbreviation Tid := nat.

(** What a call does while it holds the mutex: resolve the pusher
    ([getLogPusher] and [logsToCWLogs]), [AddLogEntry], [ForceFlush]. *)
Inductive Op : Type := OpResolve | OpAppend | OpFlush.

Inductive Act : Type :=
| Lock (x : ExpId)
| Run (x : ExpId) (o : Op)
| Unlock (x : ExpId).

Definition act_exp (a : Act) : ExpId :=
  match a with Lock x | Run x _ | Unlock x => x end.

(** The operations of one [PushLogs] call on exporter [x] whose batch
    translates to [k] events: no append and no flush when [k = 0]. *)
Definition call_prog (x : ExpId) (k : nat) : list Act :=
  Lock x :: Run x OpResolve ::
  (if Nat.eqb k 0 then [] else repeat (Run x OpAppend) k ++ [Run x OpFlush])
  ++ [Unlock x].

(** A goroutine's program: a sequence of [PushLogs] calls. *)
Inductive progs : list Act -> Prop :=
| progs_nil : progs []
| progs_call x k r : progs r -> progs (call_prog x k ++ r).

(** Global state: the remaining program of every goroutine and the
    holder of every exporter's mutex. *)
Record state : Type := mkState {
  threads : list (list Act);
  owner : ExpId -> option Tid
}.

Definition upd (f : ExpId -> option Tid) (x : ExpId) (v : option Tid)
  : ExpId -> option Tid :=
  fun y => if Nat.eqb y x then v else f y.

(** One step of goroutine [t]. *)
Inductive step : state -> Tid * Act -> state -> Prop :=
| step_lock s t x rest :
    threads s !! t = Some (Lock x :: rest) ->
    owner s x = None ->
    step s (t, Lock x)
      (mkState (<[t := rest]> (threads s)) (upd (owner s) x (Some t)))
| step_run s t x o rest :
    threads s !! t = Some (Run x o :: rest) ->
    step s (t, Run x o) (mkState (<[t := rest]> (threads s)) (owner s))
| step_unlock s t x rest :
    threads s !! t = Some (Unlock x :: rest) ->
    owner s x = Some t ->
    step s (t, Unlock x)
      (mkState (<[t := rest]> (threads s)) (upd (owner s) x None)).

(** Executions, with the trace of (goroutine, operation) labels. *)
Inductive exec : state -> list (Tid * Act) -> state -> Prop :=
| exec_nil s : exec s [] s
| exec_cons s l s' tr s'' : step s l s' -> exec s' tr s'' -> exec s (l :: tr) s''.

Definition init (ps : list (list Act)) : state := mkState ps (fun _ => None).

(** Between a goroutine's [Lock x] and its next [Unlock x], no other
    goroutine performs an operation on exporter [x]. *)
Definition serialized_on (tr : list (Tid * Act)) (x : ExpId) : Prop :=
  forall pre t1 mid post,
    tr = pre ++ (t1, Lock x) :: mid ++ post ->
    (t1, Unlock x) ∉ mid ->
    forall t2 a, (t2, a) ∈ mid -> act_exp a = x -> t2 = t1.

(** The same, for every exporter and every operation: one lock for the
    whole process. *)
Definition globally_serialized (tr : list (Tid * Act)) : Prop :=
  forall pre t1 x mid post,
    tr = pre ++ (t1, Lock x) :: mid ++ post ->
    (t1, Unlock x) ∉ mid ->
    forall t2 a, (t2, a) ∈ mid -> t2 = t1.

(** The shape of a goroutine's remaining program: either between calls
    (holding no mutex), or inside a call on exporter [x], whose mutex it
    holds, before the [Unlock x] that ends it. *)
Definition thread_ok (own : ExpId -> option Tid) (t : Tid) (rest : list Act) : Prop :=
  (progs rest /\ forall y, own y <> Some t) \/
  (exists x b r, rest = b ++ Unlock x :: r /\
     Forall (fun a => exists o, a = Run x o) b /\ progs r /\
     own x = Some t /\ forall y, own y = Some t -> y = x).

Definition inv (s : state) : Prop :=
  forall t rest, threads s !! t = Some rest -> thread_ok (owner s) t rest.

(** Two goroutines, each making one [PushLogs] call with a one-event
    batch, on two different exporters, and an interleaving of them. *)
Definition two_exporters : list (list Act) := [call_prog 0 1; call_prog 1 1].

Definition interleaved_trace : list (Tid * Act) :=
  [(0, Lock 0); (1, Lock 1);
   (0, Run 0 OpResolve); (1, Run 1 OpResolve);
   (0, Run 0 OpAppend); (1, Run 1 OpAppend);
   (0, Run 0 OpFlush); (1, Run 1 OpFlush);
   (0, Unlock 0); (1, Unlock 1)]%nat.

(** Two goroutines, each making one [PushLogs] call with a one-event
    batch, on the same exporter; a run of the two calls one after the
    other, and the start of a run in which both take its mutex. *)
Definition same_exporter : list (list Act) := [call_prog 0 1; call_prog 0 1].

Definition sequential_trace : list (Tid * Act) :=
  [(0, Lock 0); (0, Run 0 OpResolve); (0, Run 0 OpAppend); (0, Run 0 OpFlush);
   (0, Unlock 0);
   (1, Lock 0); (1, Run 0 OpResolve); (1, Run 0 OpAppend); (1, Run 0 OpFlush);
   (1, Unlock 0)]%nat.

Definition contended_trace : list (Tid * Act) := [(0, Lock 0); (1, Lock 0)]%nat.

End Sched.

(* ------------------------------------------------------------------ *)
(** ** Views of the exporter state used to state the properties *)

Section ExporterViews.
Context {PS : Type} `{Pusher PS}.

(** What [getLogPusher] would find for [(logGroup, logStream)] without
    allocating: the outer map, then the inner map it references. *)
Definition registry_lookup (e : exporter PS) (logGroup logStream : string)
  : option PusherId :=
  match groupStreamToPusherMap e !! logGroup with
  | Some l => match heap e !! l with
              | Some inner => inner !! logStream
              | None => None
              end
  | None => None
  end.

(** How many times [NewPusher] was called for a key. *)
Fixpoint count_new (logGroup logStream : string) (cs : list PusherCall) : nat :=
  match cs with
  | [] => 0
  | CallNew _ g s :: r =>
      ((if String.eqb logGroup g && String.eqb logStream s then 1 else 0)
       + count_new logGroup logStream r)%nat
  | _ :: r => count_new logGroup logStream r
  end.

(** The events handed to [AddLogEntry] in a run of calls. *)
Fixpoint adds_of (cs : list PusherCall) : list Event :=
  match cs with
  | [] => []
  | CallAdd _ ev _ :: r => ev :: adds_of r
  | _ :: r => adds_of r
  end.

(** Invariant of the exporter state: outer map entries reference
    distinct, already allocated inner maps; every registered pusher has a
    state; [NewPusher] has been called once for every bound key and never
    for an unbound one. *)
Record wf (e : exporter PS) : Prop := {
  wf_outer_inj : forall g1 g2 l,
    groupStreamToPusherMap e !! g1 = Some l ->
    groupStreamToPusherMap e !! g2 = Some l -> g1 = g2;
  wf_outer_fresh : forall g l,
    groupStreamToPusherMap e !! g = Some l -> (l < next_loc e)%nat;
  wf_pushers : forall l inner s p,
    heap e !! l = Some inner -> inner !! s = Some p -> is_Some (pushers e !! p);
  wf_count_new : forall g s,
    count_new g s (calls e) =
    match registry_lookup e g s with Some _ => 1%nat | None => 0%nat end
}.

(** Two states with the same configuration and registry and the same set
    of allocated pushers. *)
Definition same_registry (e e' : exporter PS) : Prop :=
  LogGroupName e' = LogGroupName e /\ LogStreamName e' = LogStreamName e /\
  retryCount e' = retryCount e /\ clock e' = clock e /\
  groupStreamToPusherMap e' = groupStreamToPusherMap e /\ heap e' = heap e /\
  next_loc e' = next_loc e /\
  (forall p, is_Some (pushers e !! p) <-> is_Some (pushers e' !! p)).

(** The operations the exporter's owner runs on it one at a time. *)
Inductive exporter_step : exporter PS -> exporter PS -> Prop :=
| xs_get e g s : exporter_step e (getLogPusher e g s).1
| xs_push e ld : exporter_step e (PushLogs e ld).1
| xs_shutdown e : exporter_step e (Shutdown e).1.

(** States reachable from [newCwLogsExporter]. *)
Inductive reachable : exporter PS -> Prop :=
| reach_new g s retries now : reachable (newExporter g s retries now)
| reach_step e e' : reachable e -> exporter_step e e' -> reachable e'.

(** Pusher identities in the registry: every bound one is below
    [next_pusher], and no two keys share one. *)
Definition pusher_ids_ok (e : exporter PS) : Prop :=
  (forall g s p, registry_lookup e g s = Some p -> (p < next_pusher e)%nat) /\
  (forall g1 s1 g2 s2 p, registry_lookup e g1 s1 = Some p ->
     registry_lookup e g2 s2 = Some p -> g1 = g2 /\ s1 = s2).

End ExporterViews.

(* ------------------------------------------------------------------ *)
(** ** Views of a batch used to state the properties *)

(** The records of a batch in the order of the three nested loops, each
    with the flattened attributes of its resource. *)
Definition batch_records (ld : Logs)
  : list (option (list (string * Val)) * LogRecord) :=
  flat_map (fun rl => map (fun log => (attrsValue (rl_Resource rl), log))
                          (flat_map ill_Logs (rl_InstrumentationLibraryLogs rl)))
           ld.

(** The events of the records that translate, in order. *)
Definition translated (rs : list (option (list (string * Val)) * LogRecord))
  : list InputLogEvent :=
  flat_map (fun r => match logToCWLog r.1 r.2 with
                     | inr ev => [ev]
                     | inl _ => []
                     end) rs.

(** The number of records whose translation fails. *)
Definition failed_count (rs : list (option (list (string * Val)) * LogRecord)) : nat :=
  length (flat_map (fun r => match logToCWLog r.1 r.2 with
                             | inr _ => []
                             | inl err => [err]
                             end) rs).

(* ------------------------------------------------------------------ *)
(** ** Views of encodings and calls *)

(** Position of a character in a string, counted from [n]. *)
Fixpoint str_index (c : ascii) (s : string) (n : Z) : option Z :=
  match s with
  | EmptyString => None
  | String c' r => if Ascii.eqb c c' then Some n else str_index c r (n + 1)
  end.

(** The value of a lower-case hexadecimal digit. *)
Definition hex_val (c : ascii) : option Z := str_index c "0123456789abcdef" 0.

(** Decoding of a lower-case hexadecimal string, two digits per byte
    ([hex.DecodeString] restricted to lower case). *)
Fixpoint hex_decode (s : string) : option (list Z) :=
  match s with
  | EmptyString => Some []
  | String c1 (String c2 r) =>
      match hex_val c1, hex_val c2, hex_decode r with
      | Some a, Some b, Some bs => Some (16 * a + b :: bs)
      | _, _, _ => None
      end
  | String _ EmptyString => None
  end.

(** An [interface{}] value without NaN or infinite floats anywhere. *)
Fixpoint val_finite (v : Val) : bool :=
  match v with
  | VDouble d => negb (PrimFloat.is_nan d || PrimFloat.is_infinity d)
  | VMap m =>
      (fix entries (m : list (string * Val)) :=
         match m with
         | [] => true
         | (_, x) :: r => val_finite x && entries r
         end) m
  | VArray xs =>
      (fix elems (xs : list Val) :=
         match xs with
         | [] => true
         | x :: r => val_finite x && elems r
         end) xs
  | _ => true
  end.

(** The same for a possibly nil [map[string]interface{}]. *)
Definition map_finite (m : option (list (string * Val))) : bool :=
  match m with
  | None => true
  | Some kvs => forallb (fun kv => val_finite kv.2) kvs
  end.

(** First binding of a key in an association list. *)
Fixpoint assoc {A} (k : string) (m : list (string * A)) : option A :=
  match m with
  | [] => None
  | (k', v) :: r => if String.eqb k k' then Some v else assoc k r
  end.

(** The pusher a call was made on. *)
Definition call_pusher (c : PusherCall) : PusherId :=
  match c with
  | CallNew p _ _ | CallAdd p _ _ | CallFlush p _ => p
  end.

(** The lines the append loop logs, given what each [AddLogEntry]
    returned. *)
Definition add_lines (rs : list (option string)) : list LogLine :=
  flat_map (fun r => (LDebug, "Adding log event"%string) ::
                     match r with
                     | Some _ => [(LError, "Failed "%string)]
                     | None => []
                     end) rs.

(** Whether a Go call returned without error. *)
Definition is_ok {E A} (r : E + A) : bool :=
  match r with
  | inl _ => false
  | inr _ => true
  end.

(* ------------------------------------------------------------------ *)
(** ** Concrete collaborators and inputs for concrete runs *)

(** A pusher buffering its events in memory; its flush always succeeds. *)
#[global] Instance memoryPusher : Pusher (list Event) := {|
  NewPusher _ _ _ := [];
  AddLogEntry st ev := (st ++ [ev], None);
  ForceFlush _ := ([], None)
|}.

(** A pusher whose appends and flushes all fail. *)
#[global] Instance failingPusher : Pusher unit := {|
  NewPusher _ _ _ := tt;
  AddLogEntry _ _ := (tt, Some "add failed"%string);
  ForceFlush _ := (tt, Some "flush failed"%string)
|}.

Definition sample_record (name : string) (body : AttributeValue) : LogRecord :=
  mkLogRecord name body 0 EmptyString 0 0 [] [] [] 1500000.

(** Five records in one resource and scope; the third has a NaN body,
    which [json.Marshal] refuses. *)
Definition sample_batch : Logs :=
  [mkRL [("host"%string, AVString "a")]
     [mkILL [sample_record "r1" (AVInt 1); sample_record "r2" (AVInt 2);
             sample_record "r3" (AVDouble nan); sample_record "r4" (AVInt 4);
             sample_record "r5" (AVInt 5)]]].

(** One record, which fails to translate. *)
Definition sample_failing_batch : Logs :=
  [mkRL [] [mkILL [sample_record "bad" (AVDouble nan)]]].

(* ================================================================== *)
(** * Properties *)

(* ------------------------------------------------------------------ *)
(** ** The attribute flattener *)

Lemma attrValue_array (xs : list AttributeValue) :
  attrValue (AVArray xs) = VArray (map attrValue xs).
Proof.
  induction xs as [|x xs IH]; [reflexivity|].
  cbn [attrValue map] in *. congruence.
Qed.

(** C8: [attrValue] is a total, structurally recursive function (hence
    terminating, with no error result): scalars map to themselves,
    arrays map element-wise in order (the empty array to the empty
    sequence), the empty variant and any unrecognised type tag to nil. *)
Theorem attrValue_total_cases :
  (forall s, attrValue (AVString s) = VString s) /\
  (forall i, attrValue (AVInt i) = VInt i) /\
  (forall d, attrValue (AVDouble d) = VDouble d) /\
  (forall b, attrValue (AVBool b) = VBool b) /\
  (forall xs, attrValue (AVArray xs) = VArray (map attrValue xs)) /\
  attrValue (AVArray []) = VArray [] /\
  attrValue AVEmpty = VNil /\
  (forall tag, attrValue (AVUnknown tag) = VNil).
Proof.
  repeat split; first [exact attrValue_array | reflexivity].
Qed.

(* ------------------------------------------------------------------ *)
(** ** Timestamps *)

(** C5: the event timestamp is [int64(ts) / int64(time.Millisecond)]
    with Go's truncating division; below 2^63 ns, where the [int64]
    conversion is the identity, it is [ts] integer-divided by 10^6. *)
Theorem logToCWLog_timestamp (resourceAttrs : option (list (string * Val)))
    (log : LogRecord) (ev : InputLogEvent) :
  logToCWLog resourceAttrs log = inr ev ->
  ile_Timestamp ev = Z.quot (int64_of_uint64 (lr_Timestamp log)) 1000000 /\
  (0 <= lr_Timestamp log < 2 ^ 63 ->
   ile_Timestamp ev = lr_Timestamp log / 1000000).
Proof.
  unfold logToCWLog. destruct (json_marshal_body _); intros Hev; [discriminate|].
  injection Hev as <-. simpl. split; [reflexivity|].
  intros Hts. unfold int64_of_uint64.
  rewrite (Z.mod_small (lr_Timestamp log)) by lia.
  destruct (Z.ltb_spec (lr_Timestamp log) (2 ^ 63)); [|lia].
  apply Z.quot_div_nonneg; lia.
Qed.

(* ------------------------------------------------------------------ *)
(** ** Field presence in the message *)

Lemma go_map_set_not_nil {A} (k : string) (v : A) (m : list (string * A)) :
  go_map_set k v m <> [].
Proof. destruct m as [|[k' v'] m]; simpl; [congruence|]. destruct (String.eqb k k'); congruence. Qed.

Lemma fold_go_map_set_not_nil (attrs : AttributeMap) (acc : list (string * Val)) :
  (attrs <> [] \/ acc <> []) ->
  fold_left (fun out kv => go_map_set kv.1 (attrValue kv.2) out) attrs acc <> [].
Proof.
  revert acc. induction attrs as [|kv attrs IH]; intros acc Hne; simpl.
  - destruct Hne; congruence.
  - apply IH. right. apply go_map_set_not_nil.
Qed.

(** [attrsValue] is nil exactly for an empty attribute map, and a
    non-empty Go map otherwise. *)
Lemma attrsValue_shape (attrs : AttributeMap) :
  match attrsValue attrs with
  | None => length attrs = 0%nat
  | Some m => m <> []
  end.
Proof.
  unfold attrsValue. destruct attrs as [|kv attrs]; simpl; [reflexivity|].
  apply fold_go_map_set_not_nil. right. congruence.
Qed.

Lemma id_HexString_not_empty (id : list Z) :
  id_IsEmpty id = false -> String.eqb (id_HexString id) EmptyString = false.
Proof.
  unfold id_HexString. intros E. rewrite E. destruct id as [|b id]; [discriminate|].
  reflexivity.
Qed.

(** The keys an [omitempty] field contributes when it encodes. *)
Definition field_has_keys (f : MarshalError + list (string * json))
    (ks : list string) : Prop :=
  forall l, f = inr l -> map fst l = ks.

Lemma encode_fields_keys (fs : list (MarshalError + list (string * json)))
    (kss : list (list string)) (js : list (string * json)) :
  Forall2 field_has_keys fs kss ->
  encode_fields fs = inr js -> map fst js = concat kss.
Proof.
  intros HF. revert js. induction HF as [|f ks fs kss Hf HF IH]; intros js Henc.
  - simpl in Henc. injection Henc as <-. reflexivity.
  - simpl in Henc. destruct f as [e|l]; [discriminate|].
    destruct (encode_fields fs) as [e|js'] eqn:E; [discriminate|].
    injection Henc as <-. rewrite map_app, (Hf l eq_refl), (IH js' eq_refl).
    reflexivity.
Qed.

Lemma field_string_keys (tag s : string) :
  field_has_keys (field_string tag s)
    (if String.eqb s EmptyString then [] else [tag]).
Proof.
  intros l. unfold field_string. destruct (String.eqb s EmptyString);
    intros Hl; injection Hl as <-; reflexivity.
Qed.

Lemma field_int_keys (tag : string) (i : Z) :
  field_has_keys (field_int tag i) (if Z.eqb i 0 then [] else [tag]).
Proof.
  intros l. unfold field_int. destruct (Z.eqb i 0);
    intros Hl; injection Hl as <-; reflexivity.
Qed.

Lemma field_id_keys (tag : string) (id : list Z) :
  field_has_keys
    (field_string tag (if negb (id_IsEmpty id) then id_HexString id else EmptyString))
    (if id_IsEmpty id then [] else [tag]).
Proof.
  destruct (id_IsEmpty id) eqn:E; simpl.
  - apply (field_string_keys tag EmptyString).
  - pose proof (field_string_keys tag (id_HexString id)) as Hk.
    rewrite (id_HexString_not_empty id E) in Hk. exact Hk.
Qed.

Lemma field_body_keys (b : AttributeValue) :
  field_has_keys (field_iface "body" (attrValue b))
    (match b with AVEmpty | AVUnknown _ => [] | _ => ["body"%string] end).
Proof.
  intros l. unfold field_iface.
  destruct b; cbn [attrValue];
    repeat (match goal with |- context [match ?x with _ => _ end] => destruct x end);
    intros Hl; try discriminate; injection Hl as <-; reflexivity.
Qed.

Lemma field_attrs_keys (tag : string) (attrs : AttributeMap) :
  field_has_keys (field_map tag (attrsValue attrs))
    (if Nat.eqb (length attrs) 0 then [] else [tag]).
Proof.
  intros l. pose proof (attrsValue_shape attrs) as Hs. unfold field_map.
  destruct (attrsValue attrs) as [m|] eqn:Ha.
  - destruct m as [|kv m]; [congruence|].
    assert (Hlen : Nat.eqb (length attrs) 0 = false).
    { unfold attrsValue in Ha.
      destruct (Nat.eqb (length attrs) 0); [discriminate|reflexivity]. }
    rewrite Hlen. destruct (marshal_val (VMap (kv :: m))); simpl;
      intros Hl; [discriminate|].
    injection Hl as <-. reflexivity.
  - rewrite Hs. intros Hl. injection Hl as <-. reflexivity.
Qed.

(** C3 (as the code does it): a translated record's message is a JSON
    object with exactly these keys, in struct order.  The body is left
    out only when the record's body flattens to nil (the empty or an
    unrecognised variant); every other body, zero-valued or not, is
    written. *)
Theorem logToCWLog_fields (resource : AttributeMap) (log : LogRecord)
    (ev : InputLogEvent) :
  logToCWLog (attrsValue resource) log = inr ev ->
  exists fs, ile_Message ev = JObject fs /\
    map fst fs =
      (if String.eqb (lr_Name log) EmptyString then [] else ["name"%string]) ++
      (match lr_Body log with AVEmpty | AVUnknown _ => [] | _ => ["body"%string] end) ++
      (if Z.eqb (lr_SeverityNumber log) 0 then [] else ["severity_number"%string]) ++
      (if String.eqb (lr_SeverityText log) EmptyString then [] else ["severity_text"%string]) ++
      (if Z.eqb (lr_DroppedAttributesCount log) 0 then [] else ["dropped_attributes_count"%string]) ++
      (if Z.eqb (lr_Flags log) 0 then [] else ["flags"%string]) ++
      (if id_IsEmpty (lr_TraceID log) then [] else ["trace_id"%string]) ++
      (if id_IsEmpty (lr_SpanID log) then [] else ["span_id"%string]) ++
      (if Nat.eqb (length (lr_Attributes log)) 0 then [] else ["attributes"%string]) ++
      (if Nat.eqb (length resource) 0 then [] else ["resource"%string]).
Proof.
  unfold logToCWLog. destruct (json_marshal_body _) as [e|j] eqn:Hj;
    intros Hev; [discriminate|].
  injection Hev as <-. cbn [ile_Message]. unfold json_marshal_body in Hj.
  destruct (encode_fields _) as [e|js] eqn:Henc; [discriminate|].
  injection Hj as <-. exists js. split; [reflexivity|].
  eapply encode_fields_keys in Henc.
  2:{ repeat constructor.
      all: first [ apply field_id_keys | apply field_body_keys
                 | apply field_attrs_keys | apply field_int_keys
                 | apply field_string_keys ]. }
  rewrite Henc. cbn [concat]. rewrite !app_nil_r. reflexivity.
Qed.

(** C3 witness: a record with a name, a trace id, an attribute and a
    resource attribute yields exactly those four keys. *)
Lemma logToCWLog_fields_witness :
  exists ev,
    logToCWLog (attrsValue [("host"%string, AVString "a")])
      (mkLogRecord "n" AVEmpty 0 EmptyString 0 0
         [0;0;0;0;0;0;0;0;0;0;0;0;0;0;0;1] [0;0;0;0;0;0;0;0]
         [("k"%string, AVBool true)] 5000000) = inr ev /\
    exists fs, ile_Message ev = JObject fs /\
      map fst fs = ["name"; "trace_id"; "attributes"; "resource"]%string.
Proof.
  match goal with
  | |- exists ev, logToCWLog (attrsValue ?res) ?r = inr ev /\ _ =>
      destruct (logToCWLog (attrsValue res) r) as [err|ev] eqn:H;
      [vm_compute in H; discriminate|];
      exists ev; split; [reflexivity|];
      destruct (logToCWLog_fields res r ev H) as [fs [H1 H2]]
  end.
  exists fs. split; [exact H1|]. rewrite H2. reflexivity.
Defined.

(** C3 counterexample: a record whose body is the integer 0 (or the
    empty string) and whose other fields are all zero; the body is still
    written, as a zero value. *)
Lemma logToCWLog_zero_body_emitted :
  logToCWLog None (mkLogRecord EmptyString (AVInt 0) 0 EmptyString 0 0 [] [] [] 0)
  = inr (mkInputLogEvent 0 (JObject [("body"%string, JInt 0)])) /\
  logToCWLog None (mkLogRecord EmptyString (AVString EmptyString) 0 EmptyString 0 0
                     [] [] [] 0)
  = inr (mkInputLogEvent 0 (JObject [("body"%string, JString EmptyString)])).
Proof. split; vm_compute; reflexivity. Qed.

(** C5 witness: 1,999,999 ns gives 1 ms. *)
Lemma logToCWLog_timestamp_witness :
  exists ev,
    logToCWLog None (mkLogRecord EmptyString AVEmpty 0 EmptyString 0 0 [] [] [] 1999999)
    = inr ev /\ ile_Timestamp ev = 1.
Proof.
  match goal with
  | |- exists ev, logToCWLog ?ra ?r = inr ev /\ _ =>
      destruct (logToCWLog ra r) as [err|ev] eqn:H;
      [vm_compute in H; discriminate|];
      exists ev; split; [reflexivity|];
      destruct (logToCWLog_timestamp ra r ev H) as [_ H2]
  end.
  rewrite H2; cbn [lr_Timestamp]; [reflexivity|lia].
Defined.

(** C5 counterexample: at 2^63 ns the [int64] conversion wraps and the
    event timestamp is negative instead of [2^63 / 10^6]. *)
Lemma logToCWLog_timestamp_wraps :
  logToCWLog None (mkLogRecord EmptyString AVEmpty 0 EmptyString 0 0 [] [] [] (2 ^ 63))
  = inr (mkInputLogEvent (-9223372036854) (JObject [])) /\
  -9223372036854 <> 2 ^ 63 / 1000000.
Proof. split; [vm_compute; reflexivity | vm_compute; discriminate]. Qed.

(* ------------------------------------------------------------------ *)
(** ** Batch translation *)

Abbreviation drop_line := (LDebug, "Failed to convert to CloudWatch Log"%string).

Lemma translated_app rs1 rs2 :
  translated (rs1 ++ rs2) = translated rs1 ++ translated rs2.
Proof. unfold translated. apply flat_map_app. Qed.

Lemma failed_count_app rs1 rs2 :
  failed_count (rs1 ++ rs2) = (failed_count rs1 + failed_count rs2)%nat.
Proof. unfold failed_count. rewrite flat_map_app. apply length_app. Qed.

(** The accumulator after a run of records. *)
Definition acc_after (acc : list InputLogEvent * Z * list LogLine)
    (rs : list (option (list (string * Val)) * LogRecord))
  : list InputLogEvent * Z * list LogLine :=
  let '(out, dropped, lg) := acc in
  (out ++ translated rs, dropped + Z.of_nat (failed_count rs),
   lg ++ repeat drop_line (failed_count rs)).

Lemma acc_after_app acc rs1 rs2 :
  acc_after (acc_after acc rs1) rs2 = acc_after acc (rs1 ++ rs2).
Proof.
  destruct acc as [[out d] lg]. unfold acc_after.
  rewrite translated_app, failed_count_app, repeat_app, !app_assoc,
    Nat2Z.inj_add, Z.add_assoc.
  reflexivity.
Qed.

Lemma acc_after_nil acc : acc_after acc [] = acc.
Proof. destruct acc as [[out d] lg]. simpl. rewrite !app_nil_r, Z.add_0_r. reflexivity. Qed.

Lemma fold_records ra (logs : list LogRecord) acc :
  fold_left
    (fun '(out, dropped, lg) log =>
       match logToCWLog ra log with
       | inl _ => (out, dropped + 1, lg ++ [drop_line])
       | inr event => (out ++ [event], dropped, lg)
       end) logs acc
  = acc_after acc (map (fun log => (ra, log)) logs).
Proof.
  revert acc. induction logs as [|log logs IH]; intros acc.
  - symmetry. apply acc_after_nil.
  - simpl. rewrite IH.
    change ((ra, log) :: map (fun log => (ra, log)) logs)
      with ([(ra, log)] ++ map (fun log => (ra, log)) logs).
    rewrite <- acc_after_app. f_equal.
    destruct acc as [[out d] lg]. unfold acc_after, translated, failed_count. simpl.
    destruct (logToCWLog ra log); simpl; rewrite ?app_nil_r, ?Z.add_0_r; reflexivity.
Qed.

Lemma fold_ills ra (ills : list InstrumentationLibraryLogs) acc :
  fold_left
    (fun acc ils =>
       fold_left
         (fun '(out, dropped, lg) log =>
            match logToCWLog ra log with
            | inl _ => (out, dropped + 1, lg ++ [drop_line])
            | inr event => (out ++ [event], dropped, lg)
            end) (ill_Logs ils) acc) ills acc
  = acc_after acc (map (fun log => (ra, log)) (flat_map ill_Logs ills)).
Proof.
  revert acc. induction ills as [|ils ills IH]; intros acc.
  - symmetry. apply acc_after_nil.
  - simpl. rewrite IH, fold_records, acc_after_app, map_app. reflexivity.
Qed.

(** [logsToCWLogs] returns the events of the translatable records in
    batch order, the number of the others as [dropped], and logs one
    debug line per dropped record. *)
Lemma logsToCWLogs_spec (lg : list LogLine) (ld : Logs) :
  logsToCWLogs lg ld =
  ((translated (batch_records ld), Z.of_nat (failed_count (batch_records ld))),
   lg ++ repeat drop_line (failed_count (batch_records ld))).
Proof.
  unfold logsToCWLogs. destruct ld as [|rl0 rls].
  - simpl. rewrite app_nil_r. reflexivity.
  - cbn [length Nat.eqb].
    assert (Hfold : forall (rls : Logs) acc,
      fold_left
        (fun acc rl =>
           let resourceAttrs := attrsValue (rl_Resource rl) in
           fold_left
             (fun acc ils =>
                fold_left
                  (fun '(out, dropped, lg) log =>
                     match logToCWLog resourceAttrs log with
                     | inl _ => (out, dropped + 1, lg ++ [drop_line])
                     | inr event => (out ++ [event], dropped, lg)
                     end) (ill_Logs ils) acc)
             (rl_InstrumentationLibraryLogs rl) acc) rls acc
      = acc_after acc (batch_records rls)).
    { induction rls0 as [|rl rls0 IH]; intros acc.
      - symmetry. apply acc_after_nil.
      - simpl. rewrite IH, fold_ills, acc_after_app. reflexivity. }
    rewrite Hfold. simpl. reflexivity.
Qed.

(* ------------------------------------------------------------------ *)
(** ** The pusher registry *)

Section Registry.
Context {PS : Type} `{Pusher PS}.
Implicit Types e : exporter PS.

Lemma getLogPusher_found e g s p :
  registry_lookup e g s = Some p -> getLogPusher e g s = (e, p).
Proof.
  unfold registry_lookup, getLogPusher.
  destruct (groupStreamToPusherMap e !! g) as [l|] eqn:Ho; [|discriminate].
  destruct (heap e !! l) as [inner|] eqn:Hh; [|discriminate].
  intros Hi. simpl. rewrite Hi. reflexivity.
Qed.

(** After [getLogPusher], the key is bound to the pusher it returned. *)
Lemma getLogPusher_lookup_self e g s :
  registry_lookup (getLogPusher e g s).1 g s = Some (getLogPusher e g s).2.
Proof.
  unfold getLogPusher.
  destruct (groupStreamToPusherMap e !! g) as [l|] eqn:Ho; simpl.
  - destruct (heap e !! l) as [inner|] eqn:Hh; simpl.
    + destruct (inner !! s) as [p|] eqn:Hi; simpl;
        unfold registry_lookup; simpl; rewrite Ho.
      * rewrite Hh. exact Hi.
      * rewrite !lookup_insert_eq. reflexivity.
    + rewrite lookup_empty. simpl. unfold registry_lookup. simpl.
      rewrite Ho, !lookup_insert_eq. reflexivity.
  - rewrite lookup_insert_eq. simpl. rewrite lookup_empty. simpl.
    unfold registry_lookup. simpl. rewrite !lookup_insert_eq. reflexivity.
Qed.

(** ... and every other key keeps its binding. *)
Lemma getLogPusher_lookup_other e g s g' s' :
  wf e -> (g' <> g \/ s' <> s) ->
  registry_lookup (getLogPusher e g s).1 g' s' = registry_lookup e g' s'.
Proof.
  intros Hwf Hne. unfold getLogPusher.
  destruct (groupStreamToPusherMap e !! g) as [l|] eqn:Ho; simpl.
  - assert (Hsame : forall l', groupStreamToPusherMap e !! g' = Some l' ->
                               l' = l -> g' = g /\ s' <> s).
    { intros l' Ho' ->. assert (g' = g) by (eapply wf_outer_inj; eauto).
      subst g'. destruct Hne; [congruence|]. auto. }
    destruct (heap e !! l) as [inner|] eqn:Hh; simpl.
    + destruct (inner !! s) as [p|] eqn:Hi; simpl; [reflexivity|].
      unfold registry_lookup; simpl.
      destruct (groupStreamToPusherMap e !! g') as [l'|] eqn:Ho'; [|reflexivity].
      destruct (decide (l' = l)) as [->|Hl].
      * destruct (Hsame l eq_refl eq_refl) as [-> Hs].
        rewrite lookup_insert_eq, Hh, lookup_insert_ne by congruence. reflexivity.
      * rewrite lookup_insert_ne by congruence. reflexivity.
    + rewrite lookup_empty. simpl. unfold registry_lookup. simpl.
      destruct (groupStreamToPusherMap e !! g') as [l'|] eqn:Ho'; [|reflexivity].
      destruct (decide (l' = l)) as [->|Hl].
      * destruct (Hsame l eq_refl eq_refl) as [-> Hs].
        rewrite lookup_insert_eq, Hh, lookup_insert_ne, lookup_empty by congruence.
        reflexivity.
      * rewrite lookup_insert_ne by congruence. reflexivity.
  - rewrite lookup_insert_eq. simpl. rewrite lookup_empty. simpl.
    unfold registry_lookup. simpl.
    destruct (decide (g' = g)) as [->|Hg].
    + rewrite Ho, !lookup_insert_eq.
      destruct Hne as [|Hs]; [congruence|].
      rewrite lookup_insert_ne, lookup_empty by congruence. reflexivity.
    + rewrite lookup_insert_ne by congruence.
      destruct (groupStreamToPusherMap e !! g') as [l'|] eqn:Ho'; [|reflexivity].
      pose proof (wf_outer_fresh _ Hwf g' l' Ho').
      rewrite !lookup_insert_ne by lia. reflexivity.
Qed.

Ltac get_cases :=
  unfold getLogPusher, registry_lookup;
  destruct (groupStreamToPusherMap _ !! _) as [l|] eqn:Ho; simpl;
  [ destruct (heap _ !! l) as [inner|] eqn:Hh; simpl;
    [ destruct (inner !! _) as [p|] eqn:Hi; simpl
    | rewrite lookup_empty; simpl ]
  | rewrite lookup_insert_eq; simpl; rewrite lookup_empty; simpl ].

(** What [getLogPusher] changes: nothing when the key is bound; otherwise
    one [NewPusher] call, whose pusher gets the next identity. *)
Lemma getLogPusher_effects e g s :
  let '(e', p) := getLogPusher e g s in
  LogGroupName e' = LogGroupName e /\ LogStreamName e' = LogStreamName e /\
  retryCount e' = retryCount e /\ clock e' = clock e /\ logger e' = logger e /\
  match registry_lookup e g s with
  | Some p0 => e' = e /\ p = p0
  | None => p = next_pusher e /\ calls e' = calls e ++ [CallNew p g s] /\
            pushers e' = <[p := NewPusher g s (retryCount e)]> (pushers e)
  end.
Proof. get_cases; repeat split; reflexivity. Qed.

Lemma count_new_app g s cs1 cs2 :
  count_new g s (cs1 ++ cs2) = (count_new g s cs1 + count_new g s cs2)%nat.
Proof.
  induction cs1 as [|c cs1 IH]; [reflexivity|].
  destruct c; simpl; rewrite IH; lia.
Qed.

Lemma getLogPusher_wf e g s : wf e -> wf (getLogPusher e g s).1.
Proof.
  intros Hwf.
  assert (Hcount : forall g' s',
    count_new g' s' (calls (getLogPusher e g s).1) =
    match registry_lookup (getLogPusher e g s).1 g' s' with
    | Some _ => 1%nat | None => 0%nat end).
  { intros g' s'.
    pose proof (getLogPusher_effects e g s) as Heff.
    destruct (getLogPusher e g s) as [e' p] eqn:Hget.
    destruct Heff as (_ & _ & _ & _ & _ & Heff).
    destruct (decide (g' = g /\ s' = s)) as [[-> ->]|Hne].
    - pose proof (getLogPusher_lookup_self e g s) as Hself. rewrite Hget in Hself.
      cbn [fst snd] in Hself |- *. rewrite Hself.
      destruct (registry_lookup e g s) eqn:Hl.
      + destruct Heff as [-> _]. rewrite (wf_count_new _ Hwf g s), Hl. reflexivity.
      + destruct Heff as (_ & -> & _).
        rewrite count_new_app, (wf_count_new _ Hwf g s), Hl. simpl.
        rewrite !String.eqb_refl. reflexivity.
    - assert (Hne' : g' <> g \/ s' <> s).
      { destruct (decide (g' = g)); [right; intros ->; tauto | left; auto]. }
      pose proof (getLogPusher_lookup_other e g s g' s' Hwf Hne') as Hoth.
      rewrite Hget in Hoth. cbn [fst snd] in Hoth |- *. rewrite Hoth.
      destruct (registry_lookup e g s) eqn:Hl.
      + destruct Heff as [-> _]. apply (wf_count_new _ Hwf).
      + destruct Heff as (_ & -> & _).
        rewrite count_new_app, (wf_count_new _ Hwf g' s'). simpl.
        destruct (String.eqb_spec g' g), (String.eqb_spec s' s); simpl;
          try lia; subst; destruct Hne'; congruence. }
  constructor; [| | |exact Hcount]; clear Hcount;
    revert Hwf; get_cases; intros Hwf.
  (* outer map: injective *)
  - apply (wf_outer_inj _ Hwf).
  - apply (wf_outer_inj _ Hwf).
  - apply (wf_outer_inj _ Hwf).
  - intros g1 g2 l'. simpl.
    destruct (decide (g1 = g)) as [->|H1], (decide (g2 = g)) as [->|H2];
      rewrite ?lookup_insert_eq, ?lookup_insert_ne by congruence; try congruence.
    + intros [= <-] Hg2. pose proof (wf_outer_fresh _ Hwf _ _ Hg2). lia.
    + intros Hg1 [= <-]. pose proof (wf_outer_fresh _ Hwf _ _ Hg1). lia.
    + apply (wf_outer_inj _ Hwf).
  (* outer map: allocated addresses *)
  - apply (wf_outer_fresh _ Hwf).
  - apply (wf_outer_fresh _ Hwf).
  - apply (wf_outer_fresh _ Hwf).
  - intros g' l'. simpl. destruct (decide (g' = g)) as [->|Hg].
    + rewrite lookup_insert_eq. intros [= <-]. lia.
    + rewrite lookup_insert_ne by congruence. intros Hg'.
      pose proof (wf_outer_fresh _ Hwf _ _ Hg'). lia.
  (* every registered pusher has a state *)
  - exact (wf_pushers _ Hwf).
  - intros l' inner' s' p' Hh' Hi'. simpl in *.
    destruct (decide (p' = next_pusher e)) as [->|Hp];
      [rewrite lookup_insert_eq; eauto|rewrite lookup_insert_ne by congruence].
    destruct (decide (l' = l)) as [->|Hl].
    + rewrite lookup_insert_eq in Hh'. injection Hh' as <-.
      rewrite lookup_insert_ne in Hi' by (intros ->; rewrite lookup_insert_eq in Hi'; congruence).
      eapply (wf_pushers _ Hwf); eauto.
    + rewrite lookup_insert_ne in Hh' by congruence. eapply (wf_pushers _ Hwf); eauto.
  - intros l' inner' s' p' Hh' Hi'. simpl in *.
    destruct (decide (p' = next_pusher e)) as [->|Hp];
      [rewrite lookup_insert_eq; eauto|rewrite lookup_insert_ne by congruence].
    destruct (decide (l' = l)) as [->|Hl].
    + rewrite lookup_insert_eq in Hh'. injection Hh' as <-.
      destruct (decide (s' = s)) as [->|Hs]; [rewrite lookup_insert_eq in Hi'; congruence|].
      rewrite lookup_insert_ne, lookup_empty in Hi' by congruence. discriminate.
    + rewrite lookup_insert_ne in Hh' by congruence. eapply (wf_pushers _ Hwf); eauto.
  - intros l' inner' s' p' Hh' Hi'. simpl in *.
    destruct (decide (p' = next_pusher e)) as [->|Hp];
      [rewrite lookup_insert_eq; eauto|rewrite lookup_insert_ne by congruence].
    destruct (decide (l' = next_loc e)) as [->|Hl].
    + rewrite lookup_insert_eq in Hh'. injection Hh' as <-.
      destruct (decide (s' = s)) as [->|Hs]; [rewrite lookup_insert_eq in Hi'; congruence|].
      rewrite lookup_insert_ne, lookup_empty in Hi' by congruence. discriminate.
    + rewrite !lookup_insert_ne in Hh' by congruence. eapply (wf_pushers _ Hwf); eauto.
Qed.

Lemma same_registry_refl e : same_registry e e.
Proof. repeat split; auto. Qed.

Lemma same_registry_trans e1 e2 e3 :
  same_registry e1 e2 -> same_registry e2 e3 -> same_registry e1 e3.
Proof.
  intros (?&?&?&?&?&?&?&Hp1) (?&?&?&?&?&?&?&Hp2).
  repeat split; try congruence; intros Hp; [apply Hp2, Hp1, Hp | apply Hp1, Hp2, Hp].
Qed.

Lemma same_registry_lookup e e' g s :
  same_registry e e' -> registry_lookup e' g s = registry_lookup e g s.
Proof.
  intros (_&_&_&_&Ho&Hh&_). unfold registry_lookup. rewrite Ho, Hh. reflexivity.
Qed.

Lemma same_registry_wf e e' :
  wf e -> same_registry e e' ->
  (forall g s, count_new g s (calls e') = count_new g s (calls e)) -> wf e'.
Proof.
  intros Hwf Hsr Hc. pose proof Hsr as (_&_&_&_&Ho&Hh&Hn&Hp).
  constructor.
  - rewrite Ho. apply (wf_outer_inj _ Hwf).
  - rewrite Ho, Hn. apply (wf_outer_fresh _ Hwf).
  - rewrite Hh. intros. apply Hp. eapply (wf_pushers _ Hwf); eauto.
  - intros g s. rewrite Hc, (same_registry_lookup e e' g s Hsr).
    apply (wf_count_new _ Hwf).
Qed.

Lemma log_line_frame e l :
  same_registry e (log_line e l) /\ calls (log_line e l) = calls e /\
  pushers (log_line e l) = pushers e /\ logger (log_line e l) = logger e ++ [l].
Proof. repeat split; auto. Qed.

Lemma add_log_entry_spec e p ev st :
  pushers e !! p = Some st ->
  let '(e', err) := add_log_entry e p ev in
  same_registry e e' /\ calls e' = calls e ++ [CallAdd p ev err] /\
  is_Some (pushers e' !! p) /\ logger e' = logger e.
Proof.
  intros Hst. unfold add_log_entry. rewrite Hst.
  destruct (AddLogEntry st ev) as [st' err]. unfold pusher_step.
  repeat split; simpl; auto.
  - intros Hq. destruct (decide (p0 = p)) as [->|Hne];
      [rewrite lookup_insert_eq; eauto|rewrite lookup_insert_ne by congruence; exact Hq].
  - intros Hq. destruct (decide (p0 = p)) as [->|Hne];
      [rewrite Hst; eauto|rewrite lookup_insert_ne in Hq by congruence; exact Hq].
  - rewrite lookup_insert_eq. eauto.
Qed.

Lemma force_flush_spec e p st :
  pushers e !! p = Some st ->
  let '(e', err) := force_flush e p in
  same_registry e e' /\ calls e' = calls e ++ [CallFlush p err] /\
  err = (ForceFlush st).2 /\ logger e' = logger e.
Proof.
  intros Hst. unfold force_flush. rewrite Hst.
  destruct (ForceFlush st) as [st' err]. unfold pusher_step.
  repeat split; simpl; auto.
  - intros Hq. destruct (decide (p0 = p)) as [->|Hne];
      [rewrite lookup_insert_eq; eauto|rewrite lookup_insert_ne by congruence; exact Hq].
  - intros Hq. destruct (decide (p0 = p)) as [->|Hne];
      [rewrite Hst; eauto|rewrite lookup_insert_ne in Hq by congruence; exact Hq].
Qed.

(** The append loop: one [AddLogEntry] per event, in order, whatever
    each call returns. *)
Lemma add_all_spec p (evs : list InputLogEvent) e :
  is_Some (pushers e !! p) ->
  exists rs lines,
    length rs = length evs /\
    calls (add_all p evs e) =
      calls e ++ zip_with (fun ev r => CallAdd p (mkEvent ev (clock e)) r) evs rs /\
    same_registry e (add_all p evs e) /\
    is_Some (pushers (add_all p evs e) !! p) /\
    logger (add_all p evs e) = logger e ++ lines /\ drop_line ∉ lines.
Proof.
  revert e. induction evs as [|ev evs IH]; intros e [st Hst].
  - exists [], []. simpl. rewrite !app_nil_r.
    repeat split; eauto using same_registry_refl. apply not_elem_of_nil.
  - change (add_all p (ev :: evs) e) with (add_all p evs (add_one p e ev)).
    set (e0 := log_line e (LDebug, "Adding log event"%string)).
    assert (Hst0 : pushers e0 !! p = Some st) by exact Hst.
    pose proof (add_log_entry_spec e0 p (mkEvent ev (clock e)) st Hst0) as Hadd.
    unfold add_one. fold e0.
    destruct (add_log_entry e0 p (mkEvent ev (clock e))) as [e1 err].
    destruct Hadd as (Hsr1 & Hc1 & Hp1 & Hl1).
    set (e2 := match err with
               | Some _ => log_line e1 (LError, "Failed "%string)
               | None => e1
               end).
    assert (Hf2 : same_registry e1 e2 /\ calls e2 = calls e1 /\
                  is_Some (pushers e2 !! p) /\
                  exists l2, logger e2 = logger e1 ++ l2 /\ drop_line ∉ l2).
    { subst e2. destruct err.
      - repeat split; auto. exists [(LError, "Failed "%string)]. split; [reflexivity|].
        rewrite list_elem_of_singleton. discriminate.
      - repeat split; auto using same_registry_refl.
        exists []. rewrite app_nil_r. split; [reflexivity|apply not_elem_of_nil]. }
    destruct Hf2 as (Hsr2 & Hc2 & Hp2 & l2 & Hl2 & Hn2).
    destruct (IH e2 Hp2) as (rs & lines & Hlen & Hc & Hsr & Hp & Hl & Hn).
    pose proof Hsr2 as (_&_&_&Hclk2&_). pose proof Hsr1 as (_&_&_&Hclk1&_).
    exists (err :: rs), ([(LDebug, "Adding log event"%string)] ++ l2 ++ lines).
    split; [simpl; lia|]. split.
    { rewrite Hc, Hc2, Hc1, Hclk2, Hclk1. simpl. rewrite <- app_assoc. reflexivity. }
    split.
    { apply (same_registry_trans e e0); [apply log_line_frame|].
      apply (same_registry_trans e0 e1); [exact Hsr1|].
      apply (same_registry_trans e1 e2); [exact Hsr2|exact Hsr]. }
    split; [exact Hp|]. split.
    { rewrite Hl, Hl2, Hl1. simpl. rewrite <- !app_assoc. reflexivity. }
    rewrite !elem_of_app, list_elem_of_singleton. intros [Hd|[Hd|Hd]];
      [discriminate|tauto|tauto].
Qed.

Lemma registry_lookup_pusher e g s p :
  wf e -> registry_lookup e g s = Some p -> is_Some (pushers e !! p).
Proof.
  intros Hwf. unfold registry_lookup.
  destruct (groupStreamToPusherMap e !! g) as [l|]; [|discriminate].
  destruct (heap e !! l) as [inner|] eqn:Hh; [|discriminate].
  intros Hi. eapply (wf_pushers _ Hwf); eauto.
Qed.

(** The configured pusher, resolved at the start of a call. *)
Lemma getLogPusher_resolved e g s :
  wf e ->
  let '(e1, p) := getLogPusher e g s in
  wf e1 /\ registry_lookup e1 g s = Some p /\ is_Some (pushers e1 !! p).
Proof.
  intros Hwf. pose proof (getLogPusher_wf e g s Hwf) as Hwf1.
  pose proof (getLogPusher_lookup_self e g s) as Hself.
  destruct (getLogPusher e g s) as [e1 p]. cbn [fst snd] in *.
  split; [exact Hwf1|]. split; [exact Hself|].
  eapply registry_lookup_pusher; eauto.
Qed.

(** A whole [PushLogs] call: the pusher is resolved first; the drop lines
    of the translation are logged; with no event nothing else happens,
    otherwise every event is appended in order and one flush follows,
    whose error is the result. *)
Lemma PushLogs_run e ld :
  wf e ->
  exists e1 p,
    getLogPusher e (LogGroupName e) (LogStreamName e) = (e1, p) /\
    wf e1 /\ registry_lookup e1 (LogGroupName e) (LogStreamName e) = Some p /\
    let evs := translated (batch_records ld) in
    let '(e', r) := PushLogs e ld in
    same_registry e1 e' /\
    (exists lines,
       logger e' = logger e ++ repeat drop_line (failed_count (batch_records ld)) ++ lines /\
       drop_line ∉ lines) /\
    (evs = [] -> calls e' = calls e1 /\ r = None) /\
    (evs <> [] ->
     exists rs st err,
       length rs = length evs /\
       calls e' = calls e1 ++
                  zip_with (fun ev r => CallAdd p (mkEvent ev (clock e)) r) evs rs ++
                  [CallFlush p err] /\
       err = (ForceFlush st).2 /\ r = err).
Proof.
  intros Hwf.
  pose proof (getLogPusher_effects e (LogGroupName e) (LogStreamName e)) as Heff.
  pose proof (getLogPusher_resolved e (LogGroupName e) (LogStreamName e) Hwf) as Hres.
  unfold PushLogs.
  destruct (getLogPusher e (LogGroupName e) (LogStreamName e)) as [e1 p] eqn:Hget.
  destruct Heff as (Hg1 & Hs1 & Hr1 & Hclk1 & Hlog1 & _).
  destruct Hres as (Hwf1 & Hlk1 & [st1 Hst1]).
  exists e1, p. split; [reflexivity|]. split; [exact Hwf1|]. split; [exact Hlk1|].
  rewrite logsToCWLogs_spec. cbn zeta.
  set (evs := translated (batch_records ld)).
  set (n := failed_count (batch_records ld)).
  set (e2 := set_logger e1 (logger e1 ++ repeat drop_line n)).
  assert (Hsr2 : same_registry e1 e2) by (repeat split; auto).
  destruct (Nat.eqb_spec (length evs) 0) as [Hz|Hz].
  - apply nil_length_inv in Hz. split; [exact Hsr2|]. split.
    { exists []. split; [simpl; rewrite Hlog1, !app_nil_r; reflexivity|apply not_elem_of_nil]. }
    split; [intros _; split; reflexivity|]. intros Hne. congruence.
  - set (e3 := log_line e2 (LInfo, "Putting log events"%string)).
    assert (Hp3 : is_Some (pushers e3 !! p)) by (simpl; eauto).
    destruct (add_all_spec p evs e3 Hp3) as (rs & lines & Hlen & Hc4 & Hsr4 & [st4 Hp4] & Hl4 & Hn4).
    set (e4 := add_all p evs e3) in *.
    set (e5 := log_line e4 (LDebug, "Log events are successfully put"%string)).
    assert (Hp5 : pushers e5 !! p = Some st4) by exact Hp4.
    pose proof (force_flush_spec e5 p st4 Hp5) as Hff.
    destruct (force_flush e5 p) as [e6 err]. destruct Hff as (Hsr6 & Hc6 & Herr & Hl6).
    assert (Hsr16 : same_registry e1 e6).
    { apply (same_registry_trans e1 e2); [exact Hsr2|].
      apply (same_registry_trans e2 e3); [apply log_line_frame|].
      apply (same_registry_trans e3 e4); [exact Hsr4|].
      apply (same_registry_trans e4 e5); [apply log_line_frame|exact Hsr6]. }
    assert (Hcalls : calls e6 = calls e1 ++
              zip_with (fun ev r => CallAdd p (mkEvent ev (clock e)) r) evs rs ++
              [CallFlush p err]).
    { rewrite Hc6. change (calls e5) with (calls e4). rewrite Hc4.
      change (calls e3) with (calls e1). change (clock e3) with (clock e1).
      rewrite Hclk1, <- app_assoc. reflexivity. }
    assert (Hlogs : logger e6 = logger e ++ repeat drop_line n ++
              [(LInfo, "Putting log events"%string)] ++ lines ++
              [(LDebug, "Log events are successfully put"%string)]).
    { rewrite Hl6. change (logger e5) with (logger e4 ++
        [(LDebug, "Log events are successfully put"%string)]).
      rewrite Hl4. change (logger e3) with ((logger e1 ++ repeat drop_line n) ++
        [(LInfo, "Putting log events"%string)]).
      rewrite Hlog1, <- !app_assoc. reflexivity. }
    assert (Hnot : forall extra, extra = [] \/
                     extra = [(LError, "Error force flushing logs. Skipping to next logPusher."%string)] ->
              drop_line ∉ [(LInfo, "Putting log events"%string)] ++ lines ++
                          [(LDebug, "Log events are successfully put"%string)] ++ extra).
    { intros extra Hex. rewrite !elem_of_app, !list_elem_of_singleton.
      intros [Hd|[Hd|[Hd|Hd]]]; try discriminate; [tauto|].
      destruct Hex as [ -> | -> ]; [apply not_elem_of_nil in Hd; exact Hd|].
      apply list_elem_of_singleton in Hd. discriminate. }
    destruct err as [msg|].
    + split; [exact Hsr16|]. split.
      { eexists. split.
        - cbn [logger log_line]. rewrite Hlogs, <- !app_assoc. reflexivity.
        - apply (Hnot _ (or_intror eq_refl)). }
      split; [intros Hnil; exfalso; apply Hz; rewrite Hnil; reflexivity|]. intros _.
      exists rs, st4, (Some msg). split; [exact Hlen|]. split; [exact Hcalls|].
      split; [exact Herr|reflexivity].
    + split; [exact Hsr16|]. split.
      { eexists. split.
        - rewrite Hlogs. reflexivity.
        - pose proof (Hnot [] (or_introl eq_refl)) as Hn. rewrite app_nil_r in Hn.
          exact Hn. }
      split; [intros Hnil; exfalso; apply Hz; rewrite Hnil; reflexivity|]. intros _.
      exists rs, st4, None. split; [exact Hlen|]. split; [exact Hcalls|].
      split; [exact Herr|reflexivity].
Qed.

Lemma Shutdown_run e :
  wf e ->
  exists e1 p,
    getLogPusher e (LogGroupName e) (LogStreamName e) = (e1, p) /\
    wf e1 /\ registry_lookup e1 (LogGroupName e) (LogStreamName e) = Some p /\
    let '(e', r) := Shutdown e in
    same_registry e1 e' /\ (exists err, calls e' = calls e1 ++ [CallFlush p err]) /\
    r = None.
Proof.
  intros Hwf.
  pose proof (getLogPusher_resolved e (LogGroupName e) (LogStreamName e) Hwf) as Hres.
  unfold Shutdown.
  destruct (getLogPusher e (LogGroupName e) (LogStreamName e)) as [e1 p] eqn:Hget.
  destruct Hres as (Hwf1 & Hlk1 & [st1 Hst1]).
  exists e1, p. split; [reflexivity|]. split; [exact Hwf1|]. split; [exact Hlk1|].
  pose proof (force_flush_spec e1 p st1 Hst1) as Hff.
  destruct (force_flush e1 p) as [e2 err]. destruct Hff as (Hsr & Hc & _ & _).
  split; [exact Hsr|]. split; [exists err; exact Hc|reflexivity].
Qed.

Lemma add_log_entry_next e p ev : next_pusher (add_log_entry e p ev).1 = next_pusher e.
Proof.
  unfold add_log_entry. destruct (pushers e !! p); [|reflexivity].
  destruct (AddLogEntry _ ev). reflexivity.
Qed.

Lemma force_flush_next e p : next_pusher (force_flush e p).1 = next_pusher e.
Proof.
  unfold force_flush. destruct (pushers e !! p); [|reflexivity].
  destruct (ForceFlush _). reflexivity.
Qed.

(** The append loop, with the lines it logs. *)
Lemma add_all_trace p (evs : list InputLogEvent) e :
  is_Some (pushers e !! p) ->
  exists rs,
    length rs = length evs /\
    calls (add_all p evs e) =
      calls e ++ zip_with (fun ev r => CallAdd p (mkEvent ev (clock e)) r) evs rs /\
    logger (add_all p evs e) = logger e ++ add_lines rs /\
    same_registry e (add_all p evs e) /\
    next_pusher (add_all p evs e) = next_pusher e /\
    is_Some (pushers (add_all p evs e) !! p).
Proof.
  revert e. induction evs as [|ev evs IH]; intros e [st Hst].
  - exists []. simpl. rewrite !app_nil_r.
    repeat split; eauto using same_registry_refl.
  - change (add_all p (ev :: evs) e) with (add_all p evs (add_one p e ev)).
    set (e0 := log_line e (LDebug, "Adding log event"%string)).
    assert (Hst0 : pushers e0 !! p = Some st) by exact Hst.
    pose proof (add_log_entry_spec e0 p (mkEvent ev (clock e)) st Hst0) as Hadd.
    pose proof (add_log_entry_next e0 p (mkEvent ev (clock e))) as Hn1.
    unfold add_one. fold e0.
    destruct (add_log_entry e0 p (mkEvent ev (clock e))) as [e1 err].
    destruct Hadd as (Hsr1 & Hc1 & Hp1 & Hl1). cbn [fst] in Hn1.
    set (e2 := match err with
               | Some _ => log_line e1 (LError, "Failed "%string)
               | None => e1
               end).
    assert (Hf2 : same_registry e1 e2 /\ calls e2 = calls e1 /\
                  is_Some (pushers e2 !! p) /\ next_pusher e2 = next_pusher e1 /\
                  logger e2 = logger e1 ++ match err with
                                            | Some _ => [(LError, "Failed "%string)]
                                            | None => []
                                            end).
    { subst e2. destruct err.
      - repeat split; auto.
      - rewrite app_nil_r. repeat split; auto using same_registry_refl. }
    destruct Hf2 as (Hsr2 & Hc2 & Hp2 & Hn2 & Hl2).
    destruct (IH e2 Hp2) as (rs & Hlen & Hc & Hl & Hsr & Hn & Hp).
    pose proof Hsr2 as (_&_&_&Hclk2&_). pose proof Hsr1 as (_&_&_&Hclk1&_).
    exists (err :: rs).
    split; [simpl; lia|]. split.
    { rewrite Hc, Hc2, Hc1, Hclk2, Hclk1. simpl. rewrite <- app_assoc. reflexivity. }
    split.
    { rewrite Hl, Hl2, Hl1. simpl. rewrite <- !app_assoc. reflexivity. }
    split.
    { apply (same_registry_trans e e0); [apply log_line_frame|].
      apply (same_registry_trans e0 e1); [exact Hsr1|].
      apply (same_registry_trans e1 e2); [exact Hsr2|exact Hsr]. }
    split; [rewrite Hn, Hn2, Hn1; reflexivity|exact Hp].
Qed.

(** A whole [PushLogs] call, with everything it logs. *)
Lemma PushLogs_trace e ld :
  wf e ->
  exists e1 p,
    getLogPusher e (LogGroupName e) (LogStreamName e) = (e1, p) /\
    registry_lookup e1 (LogGroupName e) (LogStreamName e) = Some p /\
    let evs := translated (batch_records ld) in
    let n := failed_count (batch_records ld) in
    let '(e', r) := PushLogs e ld in
    same_registry e1 e' /\ next_pusher e' = next_pusher e1 /\
    (evs = [] -> calls e' = calls e1 /\ r = None /\
                 logger e' = logger e ++ repeat drop_line n) /\
    (evs <> [] ->
     exists rs err,
       length rs = length evs /\
       calls e' = calls e1 ++
                  zip_with (fun ev r => CallAdd p (mkEvent ev (clock e)) r) evs rs ++
                  [CallFlush p err] /\
       r = err /\ (exists st, err = (ForceFlush st).2) /\
       logger e' = logger e ++ repeat drop_line n ++
                   [(LInfo, "Putting log events"%string)] ++ add_lines rs ++
                   [(LDebug, "Log events are successfully put"%string)] ++
                   match err with
                   | Some _ => [(LError, "Error force flushing logs. Skipping to next logPusher."%string)]
                   | None => []
                   end).
Proof.
  intros Hwf.
  pose proof (getLogPusher_effects e (LogGroupName e) (LogStreamName e)) as Heff.
  pose proof (getLogPusher_resolved e (LogGroupName e) (LogStreamName e) Hwf) as Hres.
  unfold PushLogs.
  destruct (getLogPusher e (LogGroupName e) (LogStreamName e)) as [e1 p] eqn:Hget.
  destruct Heff as (Hg1 & Hs1 & Hr1 & Hclk1 & Hlog1 & _).
  destruct Hres as (Hwf1 & Hlk1 & [st1 Hst1]).
  exists e1, p. split; [reflexivity|]. split; [exact Hlk1|].
  rewrite logsToCWLogs_spec. cbn zeta.
  set (evs := translated (batch_records ld)).
  set (n := failed_count (batch_records ld)).
  set (e2 := set_logger e1 (logger e1 ++ repeat drop_line n)).
  assert (Hsr2 : same_registry e1 e2) by (repeat split; auto).
  destruct (Nat.eqb_spec (length evs) 0) as [Hz|Hz].
  - apply nil_length_inv in Hz. split; [exact Hsr2|]. split; [reflexivity|]. split.
    + intros _. split; [reflexivity|]. split; [reflexivity|]. simpl. rewrite Hlog1. reflexivity.
    + intros Hne. congruence.
  - set (e3 := log_line e2 (LInfo, "Putting log events"%string)).
    assert (Hp3 : is_Some (pushers e3 !! p)) by (simpl; eauto).
    destruct (add_all_trace p evs e3 Hp3) as (rs & Hlen & Hc4 & Hl4 & Hsr4 & Hn4 & [st4 Hp4]).
    set (e4 := add_all p evs e3) in *.
    set (e5 := log_line e4 (LDebug, "Log events are successfully put"%string)).
    assert (Hp5 : pushers e5 !! p = Some st4) by exact Hp4.
    pose proof (force_flush_spec e5 p st4 Hp5) as Hff.
    pose proof (force_flush_next e5 p) as Hn6.
    destruct (force_flush e5 p) as [e6 err]. destruct Hff as (Hsr6 & Hc6 & Herr & Hl6).
    cbn [fst] in Hn6.
    assert (Hsr16 : same_registry e1 e6).
    { apply (same_registry_trans e1 e2); [exact Hsr2|].
      apply (same_registry_trans e2 e3); [apply log_line_frame|].
      apply (same_registry_trans e3 e4); [exact Hsr4|].
      apply (same_registry_trans e4 e5); [apply log_line_frame|exact Hsr6]. }
    assert (Hn16 : next_pusher e6 = next_pusher e1).
    { rewrite Hn6. change (next_pusher e5) with (next_pusher e4). rewrite Hn4. reflexivity. }
    assert (Hcalls : calls e6 = calls e1 ++
              zip_with (fun ev r => CallAdd p (mkEvent ev (clock e)) r) evs rs ++
              [CallFlush p err]).
    { rewrite Hc6. change (calls e5) with (calls e4). rewrite Hc4.
      change (calls e3) with (calls e1). change (clock e3) with (clock e1).
      rewrite Hclk1, <- app_assoc. reflexivity. }
    assert (Hlogs : logger e6 = logger e ++ repeat drop_line n ++
              [(LInfo, "Putting log events"%string)] ++ add_lines rs ++
              [(LDebug, "Log events are successfully put"%string)]).
    { rewrite Hl6. change (logger e5) with (logger e4 ++
        [(LDebug, "Log events are successfully put"%string)]).
      rewrite Hl4. change (logger e3) with ((logger e1 ++ repeat drop_line n) ++
        [(LInfo, "Putting log events"%string)]).
      rewrite Hlog1, <- !app_assoc. reflexivity. }
    destruct err as [msg|].
    + split; [exact Hsr16|]. split; [exact Hn16|].
      split; [intros Hnil; exfalso; apply Hz; rewrite Hnil; reflexivity|]. intros _.
      exists rs, (Some msg). split; [exact Hlen|]. split; [exact Hcalls|].
      split; [reflexivity|]. split; [exists st4; exact Herr|]. cbn [logger log_line]. rewrite Hlogs, <- !app_assoc. reflexivity.
    + split; [exact Hsr16|]. split; [exact Hn16|].
      split; [intros Hnil; exfalso; apply Hz; rewrite Hnil; reflexivity|]. intros _.
      exists rs, None. split; [exact Hlen|]. split; [exact Hcalls|].
      split; [reflexivity|]. split; [exists st4; exact Herr|]. rewrite Hlogs, !app_nil_r. reflexivity.
Qed.

Lemma count_new_adds g s p (evs : list InputLogEvent) rs t :
  count_new g s (zip_with (fun ev r => CallAdd p (mkEvent ev t) r) evs rs) = 0%nat.
Proof.
  revert rs. induction evs as [|ev evs IH]; intros [|r rs]; simpl; auto.
Qed.

Lemma newExporter_wf g s retries now : wf (newExporter (PS := PS) g s retries now).
Proof.
  constructor; simpl.
  - intros g1 g2 l. rewrite lookup_empty. discriminate.
  - intros g' l. rewrite lookup_empty. discriminate.
  - intros l inner s' p. rewrite lookup_empty. discriminate.
  - intros g' s'. unfold registry_lookup. simpl. rewrite lookup_empty. reflexivity.
Qed.

Lemma exporter_step_wf e e' : wf e -> exporter_step e e' -> wf e'.
Proof.
  intros Hwf Hstep. destruct Hstep as [e g s|e ld|e].
  - apply getLogPusher_wf, Hwf.
  - destruct (PushLogs_run e ld Hwf) as (e1 & p & _ & Hwf1 & _ & Hrun).
    destruct (PushLogs e ld) as [e' r]. destruct Hrun as (Hsr & _ & Hnil & Hcons).
    apply (same_registry_wf e1 e' Hwf1 Hsr). intros g s.
    destruct (translated (batch_records ld)) as [|ev evs] eqn:Hevs.
    + destruct (Hnil eq_refl) as [-> _]. reflexivity.
    + destruct (Hcons ltac:(discriminate)) as (rs & st & err & _ & -> & _).
      rewrite !count_new_app, count_new_adds. simpl. lia.
  - destruct (Shutdown_run e Hwf) as (e1 & p & _ & Hwf1 & _ & Hrun).
    destruct (Shutdown e) as [e' r]. destruct Hrun as (Hsr & [err Hc] & _).
    apply (same_registry_wf e1 e' Hwf1 Hsr). intros g s.
    rewrite Hc, count_new_app. simpl. lia.
Qed.

Lemma reachable_wf e : reachable e -> wf e.
Proof.
  induction 1 as [g s retries now|e e' _ IH Hstep].
  - apply newExporter_wf.
  - eapply exporter_step_wf; eauto.
Qed.

(** A bound key keeps its pusher across any one operation. *)
Lemma exporter_step_lookup e e' g s p :
  wf e -> exporter_step e e' ->
  registry_lookup e g s = Some p -> registry_lookup e' g s = Some p.
Proof.
  intros Hwf Hstep Hlk.
  assert (Hget : forall g' s', registry_lookup (getLogPusher e g' s').1 g s = Some p).
  { intros g' s'. destruct (decide (g = g' /\ s = s')) as [[-> ->]|Hne].
    - rewrite (getLogPusher_found e g' s' p Hlk). exact Hlk.
    - rewrite getLogPusher_lookup_other; [exact Hlk|exact Hwf|].
      destruct (decide (g = g')); [right; intros ->; tauto|left; auto]. }
  destruct Hstep as [e g' s'|e ld|e].
  - apply Hget.
  - destruct (PushLogs_run e ld Hwf) as (e1 & q & Hg & _ & _ & Hrun).
    destruct (PushLogs e ld) as [e' r]. destruct Hrun as (Hsr & _). cbn [fst].
    rewrite (same_registry_lookup e1 e' g s Hsr).
    specialize (Hget (LogGroupName e) (LogStreamName e)). rewrite Hg in Hget. exact Hget.
  - destruct (Shutdown_run e Hwf) as (e1 & q & Hg & _ & _ & Hrun).
    destruct (Shutdown e) as [e' r]. destruct Hrun as (Hsr & _). cbn [fst].
    rewrite (same_registry_lookup e1 e' g s Hsr).
    specialize (Hget (LogGroupName e) (LogStreamName e)). rewrite Hg in Hget. exact Hget.
Qed.

(** C4: resolving a key twice returns the same pusher and leaves the
    state as the first call left it; in every state the exporter reaches,
    [NewPusher] has been called at most once per key; and once a key is
    bound, every later state binds it to the same pusher. *)
Theorem getLogPusher_memoized (e : exporter PS) :
  reachable e ->
  (forall g s, getLogPusher (getLogPusher e g s).1 g s = getLogPusher e g s) /\
  (forall g s, (count_new g s (calls e) <= 1)%nat) /\
  (forall g s p e', registry_lookup e g s = Some p ->
                    rtc exporter_step e e' -> registry_lookup e' g s = Some p).
Proof.
  intros Hreach. split; [|split].
  - intros g s. rewrite (getLogPusher_found _ g s _ (getLogPusher_lookup_self e g s)).
    destruct (getLogPusher e g s); reflexivity.
  - intros g s. rewrite (wf_count_new _ (reachable_wf e Hreach)).
    destruct (registry_lookup e g s); lia.
  - intros g s p e' Hlk Hrtc. revert Hreach Hlk.
    induction Hrtc as [e|e e1 e' Hstep _ IH]; intros Hreach Hlk; [exact Hlk|].
    apply IH; [econstructor; eauto|].
    eapply exporter_step_lookup; eauto using reachable_wf.
Qed.

(** The calls made by resolving the configured pusher: none when it is
    already bound, the single [NewPusher] call otherwise. *)
Lemma getLogPusher_new_calls e g s :
  let '(e1, p) := getLogPusher e g s in
  exists new, (new = [] \/ new = [CallNew p g s]) /\ calls e1 = calls e ++ new.
Proof.
  pose proof (getLogPusher_effects e g s) as Heff.
  destruct (getLogPusher e g s) as [e1 p]. destruct Heff as (_&_&_&_&_&Heff).
  destruct (registry_lookup e g s).
  - destruct Heff as [-> ->]. exists []. rewrite app_nil_r. auto.
  - destruct Heff as (-> & Hc & _). eexists. split; [right; reflexivity|exact Hc].
Qed.

(** [PushLogs] seen from the state before the call. *)
Lemma PushLogs_calls e ld :
  wf e ->
  let g := LogGroupName e in
  let s := LogStreamName e in
  let evs := translated (batch_records ld) in
  let '(e', r) := PushLogs e ld in
  exists p new,
    (new = [] \/ new = [CallNew p g s]) /\ registry_lookup e' g s = Some p /\
    (exists lines,
       logger e' = logger e ++ repeat drop_line (failed_count (batch_records ld)) ++ lines /\
       drop_line ∉ lines) /\
    (evs = [] -> calls e' = calls e ++ new /\ r = None) /\
    (evs <> [] ->
     exists rs st err,
       length rs = length evs /\
       calls e' = calls e ++ new ++
                  zip_with (fun ev r => CallAdd p (mkEvent ev (clock e)) r) evs rs ++
                  [CallFlush p err] /\
       err = (ForceFlush st).2 /\ r = err).
Proof.
  intros Hwf. cbn zeta.
  pose proof (getLogPusher_new_calls e (LogGroupName e) (LogStreamName e)) as Hnew.
  destruct (PushLogs_run e ld Hwf) as (e1 & p & Hget & _ & Hlk & Hrun).
  rewrite Hget in Hnew. destruct Hnew as (new & Hnew & Hc1).
  destruct (PushLogs e ld) as [e' r]. destruct Hrun as (Hsr & Hlog & Hnil & Hcons).
  exists p, new. split; [exact Hnew|]. split.
  { rewrite (same_registry_lookup e1 e' _ _ Hsr). exact Hlk. }
  split; [exact Hlog|]. split.
  - intros Hz. destruct (Hnil Hz) as [-> ->]. split; [exact Hc1|reflexivity].
  - intros Hz. destruct (Hcons Hz) as (rs & st & err & Hlen & Hc & Herr & Hr).
    exists rs, st, err. split; [exact Hlen|]. split; [|auto].
    rewrite Hc, Hc1, <- app_assoc. reflexivity.
Qed.

(** C9: [Shutdown] returns nil; the only pusher it flushes is the one
    bound to the configured (group, stream), once, whatever the flush
    returns; the only other call it may make is the [NewPusher] that
    resolving that key needs. *)
Theorem Shutdown_flushes_configured (e : exporter PS) :
  wf e ->
  let '(e', r) := Shutdown e in
  r = None /\
  exists p err new,
    registry_lookup e' (LogGroupName e) (LogStreamName e) = Some p /\
    (new = [] \/ new = [CallNew p (LogGroupName e) (LogStreamName e)]) /\
    calls e' = calls e ++ new ++ [CallFlush p err].
Proof.
  intros Hwf.
  pose proof (getLogPusher_new_calls e (LogGroupName e) (LogStreamName e)) as Hnew.
  destruct (Shutdown_run e Hwf) as (e1 & p & Hget & _ & Hlk & Hrun).
  rewrite Hget in Hnew. destruct Hnew as (new & Hnew & Hc1).
  destruct (Shutdown e) as [e' r]. destruct Hrun as (Hsr & [err Hc] & Hr).
  split; [exact Hr|]. exists p, err, new. split.
  { rewrite (same_registry_lookup e1 e' _ _ Hsr). exact Hlk. }
  split; [exact Hnew|]. rewrite Hc, Hc1, <- app_assoc. reflexivity.
Qed.

(** C2: for a batch with at least one translated event, [PushLogs]
    appends every event (whatever [AddLogEntry] returns), then flushes
    once, and returns exactly the error of that flush.  Each failed
    append is logged (the "Failed " line after its "Adding log event"
    line) and the loop goes on; the flush error is logged too. *)
Theorem PushLogs_flush_error (e : exporter PS) (ld : Logs) :
  wf e -> translated (batch_records ld) <> [] ->
  let evs := translated (batch_records ld) in
  let '(e', r) := PushLogs e ld in
  exists p new rs err,
    registry_lookup e' (LogGroupName e) (LogStreamName e) = Some p /\
    (new = [] \/ new = [CallNew p (LogGroupName e) (LogStreamName e)]) /\
    length rs = length evs /\
    calls e' = calls e ++ new ++
               zip_with (fun ev r => CallAdd p (mkEvent ev (clock e)) r) evs rs ++
               [CallFlush p err] /\
    (exists st, err = (ForceFlush st).2) /\
    r = err /\
    logger e' = logger e ++ repeat drop_line (failed_count (batch_records ld)) ++
                [(LInfo, "Putting log events"%string)] ++ add_lines rs ++
                [(LDebug, "Log events are successfully put"%string)] ++
                match err with
                | Some _ => [(LError, "Error force flushing logs. Skipping to next logPusher."%string)]
                | None => []
                end.
Proof.
  intros Hwf Hne. cbn zeta.
  pose proof (getLogPusher_new_calls e (LogGroupName e) (LogStreamName e)) as Hnew.
  destruct (PushLogs_trace e ld Hwf) as (e1 & p & Hget & Hlk & Htr).
  rewrite Hget in Hnew. destruct Hnew as (new & Hnew & Hc1).
  destruct (PushLogs e ld) as [e' r]. destruct Htr as (Hsr & _ & _ & Hcons).
  destruct (Hcons Hne) as (rs & err & Hlen & Hc & Hr & Hst & Hl).
  exists p, new, rs, err.
  split; [rewrite (same_registry_lookup e1 e' _ _ Hsr); exact Hlk|].
  split; [exact Hnew|]. split; [exact Hlen|].
  split; [rewrite Hc, Hc1, <- app_assoc; reflexivity|].
  split; [exact Hst|]. split; [exact Hr|exact Hl].
Qed.

Lemma translated_all_failed rs :
  (forall r, r ∈ rs -> exists err, logToCWLog r.1 r.2 = inl err) ->
  translated rs = [].
Proof.
  induction rs as [|r rs IH]; intros Hall; [reflexivity|].
  unfold translated. simpl. destruct (Hall r (list_elem_of_here r rs)) as [err ->].
  simpl. apply IH. intros r' Hr'. apply Hall. apply list_elem_of_further, Hr'.
Qed.

(** C6: a batch with no resource logs, or whose records all fail to
    translate, returns nil without any [AddLogEntry] or [ForceFlush]
    call (resolving the configured pusher may construct it). *)
Theorem PushLogs_empty_batch (e : exporter PS) (ld : Logs) :
  wf e ->
  (ld = [] \/
   forall r, r ∈ batch_records ld -> exists err, logToCWLog r.1 r.2 = inl err) ->
  let '(e', r) := PushLogs e ld in
  r = None /\
  exists new,
    (new = [] \/ exists p, new = [CallNew p (LogGroupName e) (LogStreamName e)]) /\
    calls e' = calls e ++ new.
Proof.
  intros Hwf Hempty.
  assert (Hz : translated (batch_records ld) = []).
  { destruct Hempty as [->|Hall]; [reflexivity|]. apply translated_all_failed, Hall. }
  pose proof (PushLogs_calls e ld Hwf) as Hrun. cbn zeta in Hrun.
  destruct (PushLogs e ld) as [e' r].
  destruct Hrun as (p & new & Hnew & _ & _ & Hnil & _).
  destruct (Hnil Hz) as [Hc Hr]. split; [exact Hr|].
  exists new. split; [destruct Hnew; [left|right; exists p]; auto|exact Hc].
Qed.

Lemma adds_of_app cs1 cs2 : adds_of (cs1 ++ cs2) = adds_of cs1 ++ adds_of cs2.
Proof.
  induction cs1 as [|c cs1 IH]; [reflexivity|].
  destruct c; simpl; rewrite IH; reflexivity.
Qed.

Lemma adds_of_zip p t (evs : list InputLogEvent) (rs : list (option string)) :
  length rs = length evs ->
  adds_of (zip_with (fun ev r => CallAdd p (mkEvent ev t) r) evs rs)
  = map (fun ev => mkEvent ev t) evs.
Proof.
  revert rs. induction evs as [|ev evs IH]; intros [|r rs] Hlen;
    simpl in *; try discriminate; [reflexivity|].
  f_equal. apply IH. lia.
Qed.

Lemma length_translated_failed rs :
  length rs = (length (translated rs) + failed_count rs)%nat.
Proof.
  induction rs as [|r rs IH]; [reflexivity|].
  unfold translated, failed_count in *. simpl.
  destruct (logToCWLog r.1 r.2); simpl; lia.
Qed.

Lemma translated_elem rs r ev :
  r ∈ rs -> logToCWLog r.1 r.2 = inr ev -> ev ∈ translated rs.
Proof.
  unfold translated. intros Hin Htr. apply list_elem_of_In, in_flat_map.
  exists r. split; [apply list_elem_of_In, Hin|]. rewrite Htr. left. reflexivity.
Qed.

(** The events handed to [AddLogEntry] by one [PushLogs] call. *)
Lemma PushLogs_adds e ld :
  wf e ->
  let '(e', r) := PushLogs e ld in
  exists suffix,
    calls e' = calls e ++ suffix /\
    adds_of suffix = map (fun ev => mkEvent ev (clock e)) (translated (batch_records ld)) /\
    ((forall p err, CallFlush p err ∈ suffix -> err = None) -> r = None).
Proof.
  intros Hwf.
  pose proof (PushLogs_calls e ld Hwf) as Hrun. cbn zeta in Hrun.
  destruct (PushLogs e ld) as [e' r].
  destruct Hrun as (p & new & Hnew & _ & _ & Hnil & Hcons).
  assert (Hnew0 : adds_of new = []) by (destruct Hnew as [-> | ->]; reflexivity).
  destruct (translated (batch_records ld)) as [|ev evs] eqn:Htr.
  - destruct (Hnil eq_refl) as [Hc Hr]. exists new. rewrite Hnew0. auto.
  - destruct (Hcons ltac:(discriminate)) as (rs & st & err & Hlen & Hc & Herr & Hr).
    eexists. split; [exact Hc|]. split.
    + rewrite !adds_of_app, Hnew0, (adds_of_zip _ _ _ _ Hlen), app_nil_r. reflexivity.
    + intros Hok. rewrite Hr. apply (Hok p).
      apply elem_of_app. right. apply elem_of_app. right. apply list_elem_of_here.
Qed.

(** C7: a record whose translation fails is dropped on its own: it is
    counted in the dropped total and logged at debug level, the records
    that translate are all appended, and when the flush this call makes
    succeeds (or it makes none) the call returns nil. *)
Theorem PushLogs_drops_failed (e : exporter PS) (ld : Logs) :
  wf e ->
  let rs := batch_records ld in
  (logsToCWLogs (logger e) ld).1.2 = Z.of_nat (failed_count rs) /\
  length rs = (length (translated rs) + failed_count rs)%nat /\
  let '(e', r) := PushLogs e ld in
  (exists lines,
     logger e' = logger e ++ repeat drop_line (failed_count rs) ++ lines /\
     drop_line ∉ lines) /\
  (exists suffix,
     calls e' = calls e ++ suffix /\
     length (adds_of suffix) = length (translated rs) /\
     (forall r0 ev, r0 ∈ rs -> logToCWLog r0.1 r0.2 = inr ev ->
        mkEvent ev (clock e) ∈ adds_of suffix) /\
     ((forall p err, CallFlush p err ∈ suffix -> err = None) -> r = None)).
Proof.
  intros Hwf. cbn zeta.
  split; [rewrite logsToCWLogs_spec; reflexivity|].
  split; [apply length_translated_failed|].
  pose proof (PushLogs_calls e ld Hwf) as Hrun. cbn zeta in Hrun.
  pose proof (PushLogs_adds e ld Hwf) as Hadds.
  destruct (PushLogs e ld) as [e' r].
  destruct Hrun as (_ & _ & _ & _ & Hlog & _ & _).
  destruct Hadds as (suffix & Hc & Hev & Hok).
  split; [exact Hlog|].
  exists suffix. split; [exact Hc|]. rewrite Hev. split; [|split; [|exact Hok]].
  - apply length_map.
  - intros r0 ev Hin Htr. apply (list_elem_of_fmap_2 (fun ev => mkEvent ev (clock e))), (translated_elem _ _ _ Hin Htr).
Qed.

(** C10: the events appended by a [PushLogs] call are, in order, the
    translated records of the batch in resource, scope, record order,
    with the records that fail to translate left out. *)
Theorem PushLogs_append_order (e : exporter PS) (ld : Logs) :
  wf e ->
  let '(e', _) := PushLogs e ld in
  exists suffix,
    calls e' = calls e ++ suffix /\
    adds_of suffix = map (fun ev => mkEvent ev (clock e)) (translated (batch_records ld)).
Proof.
  intros Hwf. pose proof (PushLogs_adds e ld Hwf) as H0.
  destruct (PushLogs e ld) as [e' r]. destruct H0 as (suffix & Hc & Hev & _).
  eauto.
Qed.

End Registry.

(* ------------------------------------------------------------------ *)
(** ** Concrete runs *)

Lemma getLogPusher_memoized_witness :
  let e1 := (PushLogs (newExporter (PS := list Event) "g" "s" 0 0) sample_batch).1 in
  reachable e1 /\
  getLogPusher (getLogPusher e1 "g" "s").1 "g" "s" = getLogPusher e1 "g" "s" /\
  (count_new "g" "s" (calls e1) <= 1)%nat /\
  registry_lookup e1 "g" "s" = Some 0%nat.
Proof.
  cbv zeta.
  assert (Hr : reachable (PushLogs (newExporter (PS := list Event) "g" "s" 0 0) sample_batch).1)
    by (eapply reach_step; [apply reach_new|apply xs_push]).
  destruct (getLogPusher_memoized _ Hr) as (H1 & H2 & _).
  split; [exact Hr|]. split; [apply H1|]. split; [apply H2|].
  vm_compute. reflexivity.
Defined.

Lemma PushLogs_flush_error_witness :
  let e0 := newExporter (PS := unit) "g" "s" 0 0 in
  wf e0 /\ translated (batch_records sample_batch) <> [] /\
  (PushLogs e0 sample_batch).2 = Some "flush failed"%string.
Proof.
  cbv zeta.
  assert (Hne : translated (batch_records sample_batch) <> []) by (vm_compute; discriminate).
  pose proof (PushLogs_flush_error (newExporter (PS := unit) "g" "s" 0 0) sample_batch
                (newExporter_wf _ _ _ _) Hne) as Hthm.
  split; [apply newExporter_wf|]. split; [exact Hne|].
  destruct (PushLogs _ sample_batch) as [e' r].
  destruct Hthm as (p & new & rs & err & _ & _ & _ & _ & [st Herr] & Hr & _).
  simpl. rewrite Hr, Herr. reflexivity.
Defined.

Lemma PushLogs_empty_batch_witness :
  let e0 := newExporter (PS := unit) "g" "s" 0 0 in
  wf e0 /\
  (forall r, r ∈ batch_records sample_failing_batch ->
             exists err, logToCWLog r.1 r.2 = inl err) /\
  (PushLogs e0 sample_failing_batch).2 = None /\
  calls (PushLogs e0 sample_failing_batch).1 = [CallNew 0 "g" "s"].
Proof.
  cbv zeta.
  assert (Hall : forall r, r ∈ batch_records sample_failing_batch ->
                           exists err, logToCWLog r.1 r.2 = inl err).
  { intros r Hr.
    change (batch_records sample_failing_batch)
      with [(None : option (list (string * Val)), sample_record "bad" (AVDouble nan))] in Hr.
    apply list_elem_of_singleton in Hr. subst r. eexists. vm_compute. reflexivity. }
  pose proof (PushLogs_empty_batch (newExporter (PS := unit) "g" "s" 0 0)
                sample_failing_batch (newExporter_wf _ _ _ _) (or_intror Hall)) as Hthm.
  split; [apply newExporter_wf|]. split; [exact Hall|].
  destruct (PushLogs _ sample_failing_batch) as [e' r] eqn:Hp.
  destruct Hthm as (Hr & new & _ & Hc). split; [exact Hr|].
  simpl. change e' with (e', r).1. rewrite <- Hp. vm_compute. reflexivity.
Defined.

Lemma PushLogs_drops_failed_witness :
  let e0 := newExporter (PS := list Event) "g" "s" 0 0 in
  wf e0 /\
  length (batch_records sample_batch) = 5%nat /\
  failed_count (batch_records sample_batch) = 1%nat /\
  (logsToCWLogs (logger e0) sample_batch).1.2 = 1 /\
  length (adds_of (calls (PushLogs e0 sample_batch).1)) = 4%nat /\
  (PushLogs e0 sample_batch).2 = None.
Proof.
  cbv zeta.
  pose proof (PushLogs_drops_failed (newExporter (PS := list Event) "g" "s" 0 0)
                sample_batch (newExporter_wf _ _ _ _)) as Hthm.
  cbv zeta in Hthm. destruct Hthm as (Hd & Hlen & Hrest).
  assert (Hf : failed_count (batch_records sample_batch) = 1%nat) by (vm_compute; reflexivity).
  split; [apply newExporter_wf|]. split; [vm_compute; reflexivity|].
  split; [exact Hf|]. split; [rewrite Hd, Hf; reflexivity|].
  assert (HF : Forall (fun c => match c with CallFlush _ err => err = None | _ => True end)
                 (calls (PushLogs (newExporter (PS := list Event) "g" "s" 0 0) sample_batch).1))
    by (vm_compute; repeat constructor).
  destruct (PushLogs _ sample_batch) as [e' r].
  destruct Hrest as (_ & (suffix & Hc & Hn & _ & Hok)). simpl.
  simpl in Hc, HF. rewrite Hc in HF.
  split.
  - rewrite Hc. simpl. rewrite Hn.
    assert (H5 : length (batch_records sample_batch) = 5%nat) by (vm_compute; reflexivity).
    rewrite Hf, H5 in Hlen. lia.
  - apply Hok. intros p err Hin. rewrite Forall_forall in HF. exact (HF _ Hin).
Defined.

Lemma PushLogs_append_order_witness :
  let e0 := newExporter (PS := list Event) "g" "s" 0 0 in
  wf e0 /\
  adds_of (calls (PushLogs e0 sample_batch).1)
  = map (fun ev => mkEvent ev 0) (translated (batch_records sample_batch)).
Proof.
  cbv zeta.
  pose proof (PushLogs_append_order (newExporter (PS := list Event) "g" "s" 0 0)
                sample_batch (newExporter_wf _ _ _ _)) as Hthm.
  split; [apply newExporter_wf|].
  destruct (PushLogs _ sample_batch) as [e' r].
  destruct Hthm as (suffix & Hc & Hev). simpl. rewrite Hc. exact Hev.
Defined.

Lemma Shutdown_flushes_configured_witness :
  let e0 := newExporter (PS := unit) "g" "s" 0 0 in
  wf e0 /\
  (Shutdown e0).2 = None /\
  calls (Shutdown e0).1 = [CallNew 0 "g" "s"; CallFlush 0 (Some "flush failed"%string)].
Proof.
  cbv zeta.
  pose proof (Shutdown_flushes_configured (newExporter (PS := unit) "g" "s" 0 0)
                (newExporter_wf _ _ _ _)) as Hthm.
  split; [apply newExporter_wf|].
  destruct (Shutdown _) as [e' r] eqn:Hs.
  destruct Hthm as (Hr & p & err & new & Hlk & Hnew & Hc). split; [exact Hr|].
  change e' with (e', r).1. rewrite <- Hs. vm_compute. reflexivity.
Defined.

(* ------------------------------------------------------------------ *)
(** ** Mutual exclusion of [PushLogs] calls *)

Module SchedProofs.
Import Sched.

Lemma progs_head rest : progs rest -> rest = [] \/ exists x rest', rest = Lock x :: rest'.
Proof.
  intros Hp. destruct Hp as [|x k r _]; [left; reflexivity|right].
  exists x. eexists. reflexivity.
Qed.

Lemma upd_eq f x v : upd f x v x = v.
Proof. unfold upd. rewrite Nat.eqb_refl. reflexivity. Qed.

Lemma upd_ne f x y v : y <> x -> upd f x v y = f y.
Proof. unfold upd. intros Hne. destruct (Nat.eqb_spec y x); [contradiction|reflexivity]. Qed.

(** A goroutine whose next operation is [Run x o] or [Unlock x] holds
    the mutex of [x]. *)
Lemma thread_ok_critical own t x a rest :
  thread_ok own t (a :: rest) -> act_exp a = x -> (exists o, a = Run x o) \/ a = Unlock x ->
  own x = Some t /\ (forall y, own y = Some t -> y = x) /\
  (a = Unlock x -> thread_ok (upd own x None) t rest) /\
  (forall o, a = Run x o -> thread_ok own t rest).
Proof.
  intros [[Hp _]|(x' & b & r & Hrest & Hb & Hr & Hown & Hone)] Hx Ha.
  - apply progs_head in Hp as [Hp|(y & r & Hp)]; [discriminate|].
    injection Hp as -> _. destruct Ha as [[o Ha]|Ha]; discriminate.
  - destruct b as [|a' b].
    + simpl in Hrest. injection Hrest as -> ->.
      destruct Ha as [[o Ha]|Ha]; [discriminate|]. injection Ha as ->.
      split; [exact Hown|]. split; [exact Hone|]. split; [|discriminate].
      intros _. left. split; [exact Hr|]. intros y. destruct (Nat.eq_dec y x) as [->|Hne].
      * rewrite upd_eq. discriminate.
      * rewrite upd_ne by exact Hne. intros Hy. apply Hne, Hone, Hy.
    + simpl in Hrest. injection Hrest as -> Hrest.
      inversion Hb as [|? ? [o' Ho'] Hb']; subst a'. simpl in Hx. subst x'.
      split; [exact Hown|]. split; [exact Hone|]. split.
      * intros Hu. discriminate.
      * intros o _. right. exists x, b, r. auto.
Qed.

Lemma Forall_run_repeat x k : Forall (fun a => exists o, a = Run x o) (repeat (Run x OpAppend) k).
Proof. induction k; constructor; eauto. Qed.

Lemma step_inv s l s' : inv s -> step s l s' -> inv s'.
Proof.
  intros Hinv Hst.
  destruct Hst as [s t x rest Ht Hfree|s t x o rest Ht|s t x rest Ht Hown];
    intros t' rest'; simpl; pose proof (lookup_lt_Some _ _ _ Ht) as Hlt;
    destruct (Nat.eq_dec t' t) as [->|Hne];
    try (rewrite list_lookup_insert_eq by exact Hlt; intros Heq; injection Heq as <-);
    try (rewrite list_lookup_insert_ne by congruence; intros Hot;
         pose proof (Hinv _ _ Hot) as Hok).
  - (* the goroutine that takes the mutex *)
    destruct (Hinv _ _ Ht) as [[Hp Hnone]|(x' & b & r & Hrest & Hb & _)].
    + remember (Lock x :: rest) as l eqn:Hl.
      destruct Hp as [|x0 k r Hr]; [discriminate|].
      unfold call_prog in Hl. simpl in Hl. injection Hl as -> Hrest. right.
      exists x, (Run x OpResolve ::
                 (if Nat.eqb k 0 then [] else repeat (Run x OpAppend) k ++ [Run x OpFlush])), r.
      split; [rewrite <- Hrest, <- !app_assoc; reflexivity|].
      split.
      { constructor; [eauto|]. destruct (Nat.eqb k 0); [constructor|].
        apply Forall_app; split; [apply Forall_run_repeat|]. constructor; eauto. }
      split; [exact Hr|]. split; [apply upd_eq|].
      intros y. destruct (Nat.eq_dec y x) as [->|Hyx]; [reflexivity|].
      rewrite upd_ne by exact Hyx. intros Hy. exfalso. apply (Hnone y Hy).
    + (* inside a call, the next operation is a [Run] or the [Unlock] *)
      exfalso. destruct b as [|a b]; simpl in Hrest; [discriminate|].
      injection Hrest as Ha _. inversion Hb as [|? ? [o Ho] _].
      rewrite <- Ha in Ho. discriminate.
  - (* other goroutines, after a [Lock x] by [t] *)
    destruct Hok as [[Hp Hnone]|(y & b & r & Hrest & Hb & Hr & Hown & Hone)].
    + left. split; [exact Hp|]. intros z. destruct (Nat.eq_dec z x) as [->|Hzx].
      * rewrite upd_eq. congruence.
      * rewrite upd_ne by exact Hzx. apply Hnone.
    + right. exists y, b, r. split; [exact Hrest|]. split; [exact Hb|]. split; [exact Hr|].
      assert (Hyx : y <> x) by congruence.
      split; [rewrite upd_ne by exact Hyx; exact Hown|].
      intros z. destruct (Nat.eq_dec z x) as [->|Hzx].
      * rewrite upd_eq. congruence.
      * rewrite upd_ne by exact Hzx. apply Hone.
  - (* the goroutine that runs an operation *)
    destruct (thread_ok_critical _ _ x _ _ (Hinv _ _ Ht) eq_refl (or_introl (ex_intro _ o eq_refl)))
      as (_ & _ & _ & Hrun). apply (Hrun o eq_refl).
  - exact Hok.
  - (* the goroutine that releases the mutex *)
    destruct (thread_ok_critical _ _ x _ _ (Hinv _ _ Ht) eq_refl (or_intror eq_refl))
      as (_ & _ & Hunl & _). apply (Hunl eq_refl).
  - (* other goroutines, after an [Unlock x] by [t] *)
    destruct Hok as [[Hp Hnone]|(y & b & r & Hrest & Hb & Hr & Hown' & Hone)].
    + left. split; [exact Hp|]. intros z. destruct (Nat.eq_dec z x) as [->|Hzx].
      * rewrite upd_eq. discriminate.
      * rewrite upd_ne by exact Hzx. apply Hnone.
    + right. exists y, b, r. split; [exact Hrest|]. split; [exact Hb|]. split; [exact Hr|].
      assert (Hyx : y <> x) by congruence.
      split; [rewrite upd_ne by exact Hyx; exact Hown'|].
      intros z. destruct (Nat.eq_dec z x) as [->|Hzx].
      * rewrite upd_eq. discriminate.
      * rewrite upd_ne by exact Hzx. apply Hone.
Qed.

Lemma exec_inv s tr s' : inv s -> exec s tr s' -> inv s'.
Proof.
  intros Hinv Hex. induction Hex as [s|s l s1 tr s2 Hst _ IH]; [exact Hinv|].
  apply IH, (step_inv _ _ _ Hinv Hst).
Qed.

Lemma exec_app_inv s tr1 tr2 s'' :
  exec s (tr1 ++ tr2) s'' -> exists s', exec s tr1 s' /\ exec s' tr2 s''.
Proof.
  revert s. induction tr1 as [|l tr1 IH]; intros s Hex.
  - exists s. split; [constructor|exact Hex].
  - inversion Hex as [|? ? s1 ? ? Hst Hrest]; subst.
    destruct (IH s1 Hrest) as (s' & H1 & H2).
    exists s'. split; [econstructor; eassumption|exact H2].
Qed.

Lemma init_inv ps : Forall progs ps -> inv (init ps).
Proof.
  intros Hps t rest Ht. left. split.
  - exact (Forall_lookup_1 _ _ _ _ Hps Ht).
  - intros y. discriminate.
Qed.

(** While goroutine [t1] holds the mutex of [x], no other goroutine
    makes an operation on [x]. *)
Lemma exclusive_step s t1 x t2 a s' :
  inv s -> owner s x = Some t1 -> step s (t2, a) s' -> act_exp a = x -> t2 = t1.
Proof.
  intros Hinv Hown Hst Hx.
  inversion Hst as [s0 t y rest Ht Hfree|s0 t y o rest Ht|s0 t y rest Ht Hy]; subst;
    simpl in *.
  - congruence.
  - destruct (thread_ok_critical _ _ _ _ _ (Hinv _ _ Ht) eq_refl
                (or_introl (ex_intro _ o eq_refl))) as (Ho & _).
    simpl in Ho. congruence.
  - congruence.
Qed.

Lemma owner_kept s t1 x t2 a s' :
  step s (t2, a) s' -> owner s x = Some t1 -> (t2, a) <> (t1, Unlock x) ->
  owner s' x = Some t1.
Proof.
  intros Hst Hown Hne.
  inversion Hst as [s0 t y rest Ht Hfree|s0 t y o rest Ht|s0 t y rest Ht Hy]; subst; simpl.
  - rewrite upd_ne by congruence. exact Hown.
  - exact Hown.
  - destruct (Nat.eq_dec x y) as [->|Hxy].
    + exfalso. apply Hne. congruence.
    + rewrite upd_ne by exact Hxy. exact Hown.
Qed.

Lemma held_exclusive x t1 s mid s' :
  exec s mid s' -> inv s -> owner s x = Some t1 -> (t1, Unlock x) ∉ mid ->
  forall t2 a, (t2, a) ∈ mid -> act_exp a = x -> t2 = t1.
Proof.
  intros Hex. induction Hex as [s|s [t a'] s1 tr s2 Hst _ IH];
    intros Hinv Hown Hnot t2 a Hin Hx.
  - exfalso. apply (not_elem_of_nil _ Hin).
  - apply elem_of_cons in Hin as [Heq|Hin].
    + injection Heq as -> ->. exact (exclusive_step _ _ _ _ _ _ Hinv Hown Hst Hx).
    + refine (IH (step_inv _ _ _ Hinv Hst) _ _ t2 a Hin Hx).
      * apply (owner_kept _ _ _ _ _ _ Hst Hown). intros Heq. apply Hnot.
        rewrite Heq. apply list_elem_of_here.
      * intros Hin'. apply Hnot, list_elem_of_further, Hin'.
Qed.

Lemma call_prog_progs x k : progs (call_prog x k).
Proof. rewrite <- (app_nil_r (call_prog x k)). apply progs_call, progs_nil. Qed.

Lemma two_exporters_progs : Forall progs two_exporters.
Proof. repeat constructor; apply call_prog_progs. Qed.

Lemma interleaved_exec : exists s, exec (init two_exporters) interleaved_trace s.
Proof.
  eexists.
  repeat (eapply exec_cons;
          [first [eapply step_lock; reflexivity
                 |eapply step_run; reflexivity
                 |eapply step_unlock; reflexivity]|]).
  apply exec_nil.
Qed.

(** C1 (as the code has it): in every execution of goroutines that each
    make [PushLogs] calls, between a goroutine's acquisition of the
    mutex of exporter [x] and its release, no other goroutine makes an
    operation on [x]: calls on the same exporter instance are
    serialized. *)
Theorem PushLogs_serialized_per_exporter ps tr s :
  Forall progs ps -> exec (init ps) tr s -> forall x, serialized_on tr x.
Proof.
  intros Hps Hex x pre t1 mid post -> Hnot t2 a Hin Hx.
  destruct (exec_app_inv _ _ _ _ Hex) as (s1 & Hpre & Hrest).
  inversion Hrest as [|? ? s2 ? ? Hlock Hrest2 Heq1 Heq2 Heq3].
  destruct (exec_app_inv _ _ _ _ Hrest2) as (s3 & Hmid & _).
  pose proof (exec_inv _ _ _ (init_inv _ Hps) Hpre) as Hinv1.
  assert (Hown : owner s2 x = Some t1).
  { inversion Hlock as [? ? ? ? _ _ Hs Hl Hs2| |]. simpl. apply upd_eq. }
  exact (held_exclusive x t1 s2 mid s3 Hmid (step_inv _ _ _ Hinv1 Hlock) Hown Hnot t2 a Hin Hx).
Qed.

(** C1 witness, on one exporter contended by two goroutines: the run of
    the two calls one after the other is serialized, and no execution
    lets the second goroutine take the mutex while the first holds it. *)
Lemma PushLogs_serialized_per_exporter_witness :
  Forall progs same_exporter /\
  (exists s, exec (init same_exporter) sequential_trace s) /\
  serialized_on sequential_trace 0 /\
  ~ (exists s, exec (init same_exporter) contended_trace s).
Proof.
  assert (Hps : Forall progs same_exporter) by (repeat constructor; apply call_prog_progs).
  assert (Hseq : exists s, exec (init same_exporter) sequential_trace s).
  { eexists.
    repeat (eapply exec_cons;
            [first [eapply step_lock; reflexivity
                   |eapply step_run; reflexivity
                   |eapply step_unlock; reflexivity]|]).
    apply exec_nil. }
  split; [exact Hps|]. split; [exact Hseq|]. split.
  - destruct Hseq as [s Hex].
    exact (PushLogs_serialized_per_exporter _ _ _ Hps Hex 0%nat).
  - intros [s Hex].
    assert (Hnot : (0%nat, Unlock 0) ∉ [(1%nat, Lock 0)]).
    { intros Hin. apply list_elem_of_singleton in Hin. discriminate. }
    pose proof (PushLogs_serialized_per_exporter _ _ _ Hps Hex 0%nat [] 0%nat
                  [(1%nat, Lock 0)] [] eq_refl Hnot 1%nat (Lock 0)
                  (list_elem_of_here _ _) eq_refl) as Heq.
    discriminate.
Defined.

(** C1 counterexample: the mutex is per exporter, not process-wide. Two
    goroutines calling [PushLogs] on two exporters run interleaved:
    goroutine 1 takes the mutex of exporter 1 while goroutine 0 holds
    that of exporter 0. *)
Lemma PushLogs_not_globally_serialized :
  Forall progs two_exporters /\
  (exists s, exec (init two_exporters) interleaved_trace s) /\
  ~ globally_serialized interleaved_trace.
Proof.
  split; [exact two_exporters_progs|]. split; [exact interleaved_exec|].
  intros Hg.
  assert (H10 : (1%nat, Lock 1) ∈ [(1%nat, Lock 1)]) by apply list_elem_of_here.
  assert (Hnot : (0%nat, Unlock 0) ∉ [(1%nat, Lock 1)]).
  { intros Hin. apply list_elem_of_singleton in Hin. discriminate. }
  pose proof (Hg [] 0%nat 0%nat [(1%nat, Lock 1)] (skipn 2 interleaved_trace)
                eq_refl Hnot 1%nat (Lock 1) H10) as Heq.
  discriminate.
Qed.

End SchedProofs.

(* ================================================================== *)
(** * Further properties of the translation and of the exporter *)

Lemma hex_val_digit n : 0 <= n < 16 -> hex_val (hex_digit n) = Some n.
Proof.
  intros Hn.
  assert (Hk : forall k, (k < 16)%nat -> hex_val (hex_digit (Z.of_nat k)) = Some (Z.of_nat k)).
  { intros k Hk. do 16 (destruct k as [|k]; [reflexivity|]). lia. }
  rewrite <- (Z2Nat.id n) by lia. apply Hk. lia.
Qed.

Lemma hex_encode_decode bs :
  Forall (fun b => 0 <= b < 256) bs -> hex_decode (hex_encode bs) = Some bs.
Proof.
  induction 1 as [|b bs Hb _ IH]; [reflexivity|]. simpl.
  rewrite (hex_val_digit (b / 16)) by (split; [apply Z.div_pos|apply Z.div_lt_upper_bound]; lia).
  rewrite (hex_val_digit (b mod 16)) by (apply Z.mod_pos_bound; lia).
  rewrite IH.
  assert (16 * (b / 16) + b mod 16 = b) as -> by (pose proof (Z.div_mod b 16 ltac:(lia)); lia).
  reflexivity.
Qed.

Lemma length_hex_encode bs : String.length (hex_encode bs) = (2 * length bs)%nat.
Proof. induction bs as [|b bs IH]; simpl; [reflexivity|]. rewrite IH. lia. Qed.

Lemma Val_deep_ind (P : Val -> Prop)
  (Pnil : P VNil) (Pint : forall i, P (VInt i)) (Pbool : forall b, P (VBool b))
  (Pdouble : forall d, P (VDouble d)) (Pstring : forall s, P (VString s))
  (Pmap : forall m, Forall (fun kv => P kv.2) m -> P (VMap m))
  (Parr : forall xs, Forall P xs -> P (VArray xs)) :
  forall v, P v.
Proof.
  exact (fix go v := match v return P v with
    | VNil => Pnil | VInt i => Pint i | VBool b => Pbool b
    | VDouble d => Pdouble d | VString s => Pstring s
    | VMap m => Pmap m ((fix gom (m : list (string * Val)) := match m return Forall (fun kv => P kv.2) m with
                          | [] => List.Forall_nil _
                          | (k, x) :: r => @List.Forall_cons _ (fun kv => P kv.2) (k, x) r (go x) (gom r)
                          end) m)
    | VArray xs => Parr xs ((fix goa (xs : list Val) := match xs return Forall P xs with
                          | [] => List.Forall_nil _
                          | x :: r => List.Forall_cons _ x r (go x) (goa r)
                          end) xs)
    end).
Qed.

Lemma marshal_map_cons_ok k x m :
  is_ok (marshal_val (VMap ((k, x) :: m)))
  = is_ok (marshal_val x) && is_ok (marshal_val (VMap m)).
Proof.
  cbn [marshal_val]. destruct (marshal_val x); [reflexivity|].
  match goal with |- _ = _ && is_ok (match ?t with inl _ => _ | inr _ => _ end) => destruct t end;
  reflexivity.
Qed.

Lemma marshal_array_cons_ok x xs :
  is_ok (marshal_val (VArray (x :: xs)))
  = is_ok (marshal_val x) && is_ok (marshal_val (VArray xs)).
Proof.
  cbn [marshal_val]. destruct (marshal_val x); [reflexivity|].
  match goal with |- _ = _ && is_ok (match ?t with inl _ => _ | inr _ => _ end) => destruct t end;
  reflexivity.
Qed.

(** [json.Marshal] of an [interface{}] value fails exactly when a NaN or
    infinite float occurs somewhere inside it. *)
Lemma marshal_val_ok v : is_ok (marshal_val v) = val_finite v.
Proof.
  induction v using Val_deep_ind; try reflexivity.
  - simpl. destruct (_ || _); reflexivity.
  - induction H as [|[k x] m Hx Hm IH]; [reflexivity|].
    simpl in Hx. rewrite marshal_map_cons_ok, Hx, IH. reflexivity.
  - induction H as [|x xs Hx Hxs IH]; [reflexivity|].
    rewrite marshal_array_cons_ok, Hx, IH. reflexivity.
Qed.

Lemma encode_fields_ok fs : is_ok (encode_fields fs) = forallb is_ok fs.
Proof.
  induction fs as [|[e|l] fs IH]; [reflexivity|reflexivity|].
  simpl. rewrite <- IH. destruct (encode_fields fs); reflexivity.
Qed.

Lemma val_finite_map kvs : val_finite (VMap kvs) = forallb (fun kv => val_finite kv.2) kvs.
Proof.
  induction kvs as [|[k x] kvs IH]; [reflexivity|].
  change (val_finite x && val_finite (VMap kvs) = val_finite x && forallb (fun kv => val_finite kv.2) kvs).
  rewrite IH. reflexivity.
Qed.

Lemma field_string_ok tag s : is_ok (field_string tag s) = true.
Proof. unfold field_string. destruct (String.eqb s EmptyString); reflexivity. Qed.

Lemma field_int_ok tag i : is_ok (field_int tag i) = true.
Proof. unfold field_int. destruct (Z.eqb i 0); reflexivity. Qed.

Lemma field_iface_ok tag v : is_ok (field_iface tag v) = val_finite v.
Proof.
  unfold field_iface. destruct v; try reflexivity;
    rewrite <- marshal_val_ok; destruct (marshal_val _); reflexivity.
Qed.

Lemma field_map_ok tag m : is_ok (field_map tag m) = map_finite m.
Proof.
  unfold field_map, map_finite. destruct m as [[|kv kvs]|]; try reflexivity.
  rewrite <- val_finite_map, <- marshal_val_ok. destruct (marshal_val _); reflexivity.
Qed.

Lemma logToCWLog_ok_eq ra log :
  is_ok (logToCWLog ra log) =
  val_finite (attrValue (lr_Body log)) && map_finite (attrsValue (lr_Attributes log)) &&
  map_finite ra.
Proof.
  unfold logToCWLog.
  transitivity (is_ok (json_marshal_body
    {| cw_Name := lr_Name log; cw_Body := attrValue (lr_Body log);
       cw_SeverityNumber := lr_SeverityNumber log; cw_SeverityText := lr_SeverityText log;
       cw_DroppedAttributesCount := lr_DroppedAttributesCount log; cw_Flags := lr_Flags log;
       cw_TraceID := if negb (id_IsEmpty (lr_TraceID log)) then id_HexString (lr_TraceID log) else EmptyString;
       cw_SpanID := if negb (id_IsEmpty (lr_SpanID log)) then id_HexString (lr_SpanID log) else EmptyString;
       cw_Attributes := attrsValue (lr_Attributes log); cw_Resource := ra |}));
    [destruct (json_marshal_body _); reflexivity|].
  unfold json_marshal_body.
  match goal with |- is_ok (match ?t with inl _ => _ | inr _ => _ end) = _ =>
    transitivity (is_ok t); [destruct t; reflexivity|] end.
  rewrite encode_fields_ok. cbn [forallb cw_Name cw_Body cw_SeverityNumber cw_SeverityText
    cw_DroppedAttributesCount cw_Flags cw_TraceID cw_SpanID cw_Attributes cw_Resource].
  rewrite !field_string_ok, !field_int_ok, field_iface_ok, !field_map_ok.
  destruct (val_finite _), (map_finite _), (map_finite _); reflexivity.
Qed.

Lemma encode_fields_incl fs js f l :
  encode_fields fs = inr js -> f ∈ fs -> f = inr l -> forall x, x ∈ l -> x ∈ js.
Proof.
  revert js. induction fs as [|f' fs IH]; intros js Henc Hin Hf x Hx.
  - exfalso. apply (not_elem_of_nil _ Hin).
  - simpl in Henc. destruct f' as [e|l']; [discriminate|].
    destruct (encode_fields fs) as [e|js'] eqn:E; [discriminate|].
    injection Henc as <-. apply elem_of_app.
    apply elem_of_cons in Hin as [->|Hin].
    + left. injection Hf as ->. exact Hx.
    + right. exact (IH js' eq_refl Hin Hf x Hx).
Qed.

Lemma field_id_value tag id :
  id_IsEmpty id = false ->
  field_string tag (if negb (id_IsEmpty id) then id_HexString id else EmptyString)
  = inr [(tag, JString (hex_encode id))].
Proof.
  intros He. pose proof (id_HexString_not_empty id He) as Hne.
  rewrite He. simpl. unfold field_string. rewrite Hne.
  unfold id_HexString. rewrite He. reflexivity.
Qed.

(** The message of a translated record is a JSON object; a non-empty
    trace id (resp. span id) of bytes appears in it under [trace_id]
    (resp. [span_id]) as a hex string that decodes back to the id. *)
Theorem logToCWLog_ids ra log ev :
  logToCWLog ra log = inr ev ->
  exists fs, ile_Message ev = JObject fs /\
    (Forall (fun b => 0 <= b < 256) (lr_TraceID log) -> id_IsEmpty (lr_TraceID log) = false ->
     exists s, ("trace_id"%string, JString s) ∈ fs /\ hex_decode s = Some (lr_TraceID log)) /\
    (Forall (fun b => 0 <= b < 256) (lr_SpanID log) -> id_IsEmpty (lr_SpanID log) = false ->
     exists s, ("span_id"%string, JString s) ∈ fs /\ hex_decode s = Some (lr_SpanID log)).
Proof.
  unfold logToCWLog. destruct (json_marshal_body _) as [e|j] eqn:Hj; intros Hev; [discriminate|].
  injection Hev as <-. cbn [ile_Message]. unfold json_marshal_body in Hj.
  destruct (encode_fields _) as [e|js] eqn:Henc; [discriminate|].
  injection Hj as <-. exists js. split; [reflexivity|]. split; intros Hb He.
  - exists (hex_encode (lr_TraceID log)). split; [|apply hex_encode_decode, Hb].
    eapply (encode_fields_incl _ _ _ _ Henc); [| apply (field_id_value "trace_id" _ He)|].
    + apply list_elem_of_In. do 6 right. left. reflexivity.
    + apply list_elem_of_here.
  - exists (hex_encode (lr_SpanID log)). split; [|apply hex_encode_decode, Hb].
    eapply (encode_fields_incl _ _ _ _ Henc); [| apply (field_id_value "span_id" _ He)|].
    + apply list_elem_of_In. do 7 right. left. reflexivity.
    + apply list_elem_of_here.
Qed.

Lemma assoc_app {A} k (l1 l2 : list (string * A)) :
  assoc k (l1 ++ l2) = match assoc k l1 with Some v => Some v | None => assoc k l2 end.
Proof.
  induction l1 as [|[k' v'] l1 IH]; [reflexivity|]. simpl.
  destruct (String.eqb k k'); [reflexivity|exact IH].
Qed.

Lemma go_map_set_assoc {A} k k' (v : A) m :
  assoc k (go_map_set k' v m) = if String.eqb k k' then Some v else assoc k m.
Proof.
  induction m as [|[k0 v0] m IH]; simpl.
  - destruct (String.eqb k k'); reflexivity.
  - destruct (String.eqb_spec k' k0) as [->|Hne]; simpl.
    + destruct (String.eqb k k0); reflexivity.
    + rewrite IH. destruct (String.eqb_spec k k0) as [->|Hk0];
        destruct (String.eqb_spec k0 k') as [->|Hk']; congruence.
Qed.

Lemma go_map_set_keys {A} k (v : A) m x :
  x ∈ map fst (go_map_set k v m) -> x = k \/ x ∈ map fst m.
Proof.
  induction m as [|[k0 v0] m IH]; simpl.
  - intros Hx. left. apply list_elem_of_singleton, Hx.
  - destruct (String.eqb k k0); simpl; intros Hx; apply elem_of_cons in Hx as [->|Hx].
    + left. reflexivity.
    + right. apply elem_of_cons. right. exact Hx.
    + right. apply elem_of_cons. left. reflexivity.
    + destruct (IH Hx) as [->|Hx']; [left; reflexivity|].
      right. apply elem_of_cons. right. exact Hx'.
Qed.

Lemma go_map_set_nodup {A} k (v : A) m :
  NoDup (map fst m) -> NoDup (map fst (go_map_set k v m)).
Proof.
  induction m as [|[k0 v0] m IH]; simpl; intros Hnd.
  - constructor; [apply not_elem_of_nil|constructor].
  - apply NoDup_cons in Hnd as [Hk0 Hnd].
    destruct (String.eqb_spec k k0) as [->|Hne]; simpl.
    + constructor; assumption.
    + constructor; [|exact (IH Hnd)].
      intros Hin. destruct (go_map_set_keys k v m k0 Hin) as [->|Hin']; [congruence|].
      contradiction.
Qed.

Lemma fold_go_map_set_assoc (kvs : AttributeMap) acc k :
  assoc k (fold_left (fun out kv => go_map_set kv.1 (attrValue kv.2) out) kvs acc)
  = match assoc k (rev kvs) with Some v => Some (attrValue v) | None => assoc k acc end.
Proof.
  revert acc. induction kvs as [|[k' v'] kvs IH]; intros acc; [reflexivity|].
  simpl. rewrite IH, assoc_app, go_map_set_assoc. simpl.
  destruct (assoc k (rev kvs)); [reflexivity|]. destruct (String.eqb k k'); reflexivity.
Qed.

Lemma fold_go_map_set_nodup (kvs : AttributeMap) acc :
  NoDup (map fst acc) ->
  NoDup (map fst (fold_left (fun out kv => go_map_set kv.1 (attrValue kv.2) out) kvs acc)).
Proof.
  revert acc. induction kvs as [|kv kvs IH]; intros acc Hnd; [exact Hnd|].
  simpl. apply IH, go_map_set_nodup, Hnd.
Qed.

Lemma attrValue_map (kvs : list (string * AttributeValue)) :
  attrValue (AVMap kvs) =
  VMap (fold_left (fun out kv => go_map_set kv.1 (attrValue kv.2) out) kvs []).
Proof.
  cbn [attrValue]. f_equal. generalize (@nil (string * Val)).
  induction kvs as [|[k v] kvs IH]; intros acc; [reflexivity|]. apply IH.
Qed.

(** Flattening a map attribute yields a Go map with no duplicate key in
    which each key holds the flattened value of its last occurrence in
    the source list. *)
Theorem attrValue_map_last_wins (kvs : list (string * AttributeValue)) :
  exists m, attrValue (AVMap kvs) = VMap m /\ NoDup (map fst m) /\
    forall k, assoc k m = option_map attrValue (assoc k (rev kvs)).
Proof.
  rewrite attrValue_map. eexists. split; [reflexivity|]. split.
  - apply fold_go_map_set_nodup. constructor.
  - intros k. rewrite fold_go_map_set_assoc. destruct (assoc k (rev kvs)); reflexivity.
Qed.

(** [attrsValue] is nil exactly for an empty attribute map; otherwise it
    has no duplicate key and each key holds the flattened value of its
    last occurrence. *)
Theorem attrsValue_last_wins (attrs : AttributeMap) :
  match attrsValue attrs with
  | None => attrs = []
  | Some m => attrs <> [] /\ NoDup (map fst m) /\
              forall k, assoc k m = option_map attrValue (assoc k (rev attrs))
  end.
Proof.
  unfold attrsValue. destruct attrs as [|kv attrs']; [reflexivity|].
  cbn [length Nat.eqb]. split; [discriminate|]. split.
  - apply fold_go_map_set_nodup. constructor.
  - intros k. rewrite fold_go_map_set_assoc. destruct (assoc k (rev (kv :: attrs'))); reflexivity.
Qed.

(** [logToCWLog] returns an error exactly when a NaN or infinite float
    remains, at any depth, in the flattened body, in the flattened record
    attributes or in the resource map it is given.  Flattening keeps only
    the last value of a repeated map key, so a NaN shadowed by a later
    value of the same key does not count. *)
Theorem logToCWLog_fails_iff ra log :
  (exists err, logToCWLog ra log = inl err) <->
  (val_finite (attrValue (lr_Body log)) && map_finite (attrsValue (lr_Attributes log)) &&
   map_finite ra = false).
Proof.
  rewrite <- logToCWLog_ok_eq.
  destruct (logToCWLog ra log) as [err|ev]; simpl; split.
  - reflexivity.
  - intros _. exists err. reflexivity.
  - intros [err' Herr]. discriminate.
  - discriminate.
Qed.

Lemma logToCWLog_bad_resource ra log :
  map_finite ra = false -> exists err, logToCWLog ra log = inl err.
Proof.
  intros Hra. pose proof (logToCWLog_ok_eq ra log) as Hok. rewrite Hra, andb_false_r in Hok.
  destruct (logToCWLog ra log) as [err|ev]; [eauto|discriminate].
Qed.

Lemma bad_resource_records rl :
  map_finite (attrsValue (rl_Resource rl)) = false ->
  translated (batch_records [rl]) = [] /\
  failed_count (batch_records [rl]) =
    length (flat_map ill_Logs (rl_InstrumentationLibraryLogs rl)).
Proof.
  intros Hra. unfold batch_records. simpl. rewrite !app_nil_r.
  induction (flat_map ill_Logs (rl_InstrumentationLibraryLogs rl)) as [|log logs [IHt IHf]];
    [split; reflexivity|].
  destruct (logToCWLog_bad_resource _ log Hra) as [err Herr].
  unfold translated, failed_count in *. simpl. rewrite Herr. simpl. split; [exact IHt|].
  rewrite IHf. reflexivity.
Qed.

(** A resource whose flattened attributes (a repeated key keeps its last
    value) contain a NaN or infinite float loses all of its records,
    wherever it sits in a batch: the batch translates to the events of
    the batch without it, with one more dropped record and one more drop
    line per record of that resource. *)
Theorem logsToCWLogs_bad_resource lg ld1 rl ld2 :
  map_finite (attrsValue (rl_Resource rl)) = false ->
  let n := length (flat_map ill_Logs (rl_InstrumentationLibraryLogs rl)) in
  logsToCWLogs lg (ld1 ++ rl :: ld2) =
  let '((out, d), lg') := logsToCWLogs lg (ld1 ++ ld2) in
  ((out, d + Z.of_nat n), lg' ++ repeat drop_line n).
Proof.
  intros Hra. cbn zeta. destruct (bad_resource_records rl Hra) as [Ht Hf].
  rewrite !logsToCWLogs_spec.
  change (rl :: ld2) with ([rl] ++ ld2). unfold batch_records. rewrite !flat_map_app.
  fold (batch_records ld1) (batch_records [rl]) (batch_records ld2).
  rewrite !translated_app, !failed_count_app, Ht, Hf. cbn [app].
  set (n := length (flat_map ill_Logs (rl_InstrumentationLibraryLogs rl))).
  replace (failed_count (batch_records ld1) + (n + failed_count (batch_records ld2)))%nat
    with (failed_count (batch_records ld1) + failed_count (batch_records ld2) + n)%nat by lia.
  rewrite repeat_app, app_assoc, Nat2Z.inj_add. reflexivity.
Qed.

(** Translating two batches one after the other is translating their
    concatenation: events and log lines are appended, dropped counts
    added. *)
Theorem logsToCWLogs_app lg ld1 ld2 :
  logsToCWLogs lg (ld1 ++ ld2) =
  let '((out1, d1), lg1) := logsToCWLogs lg ld1 in
  let '((out2, d2), lg2) := logsToCWLogs lg1 ld2 in
  ((out1 ++ out2, d1 + d2), lg2).
Proof.
  rewrite !logsToCWLogs_spec. unfold batch_records. rewrite flat_map_app.
  fold (batch_records ld1) (batch_records ld2).
  rewrite translated_app, failed_count_app, repeat_app, app_assoc, Nat2Z.inj_add.
  reflexivity.
Qed.

Section Extras.
Context {PS : Type} `{Pusher PS}.
Implicit Types e : exporter PS.

Lemma Forall_zip_with_pusher p t (evs : list InputLogEvent) (rs : list (option string)) :
  Forall (fun c => call_pusher c = p)
    (zip_with (fun ev r => CallAdd p (mkEvent ev t) r) evs rs).
Proof.
  revert rs. induction evs as [|ev evs IH]; intros [|r rs]; simpl; constructor; auto.
Qed.

(** A [PushLogs] call only touches the configured pusher: every call it
    makes is on the pusher it leaves bound to the configured
    (group, stream), and every other key keeps its binding. *)
Theorem PushLogs_only_configured e ld :
  wf e ->
  let g := LogGroupName e in
  let s := LogStreamName e in
  let '(e', _) := PushLogs e ld in
  exists p suffix,
    registry_lookup e' g s = Some p /\
    calls e' = calls e ++ suffix /\
    Forall (fun c => call_pusher c = p) suffix /\
    forall g' s', (g' <> g \/ s' <> s) -> registry_lookup e' g' s' = registry_lookup e g' s'.
Proof.
  intros Hwf. cbn zeta.
  pose proof (PushLogs_calls e ld Hwf) as Hrun. cbn zeta in Hrun.
  destruct (PushLogs_run e ld Hwf) as (e1 & q & Hget & _ & _ & Hrun2).
  pose proof (fun g' s' Hne => getLogPusher_lookup_other e (LogGroupName e) (LogStreamName e) g' s' Hwf Hne) as Hother.
  rewrite Hget in Hother. cbn [fst] in Hother.
  destruct (PushLogs e ld) as [e' r].
  destruct Hrun2 as (Hsr & _).
  destruct Hrun as (p & new & Hnew & Hlk & _ & Hnil & Hcons).
  assert (Hnewp : Forall (fun c => call_pusher c = p) new)
    by (destruct Hnew as [-> | ->]; repeat constructor).
  exists p.
  destruct (translated (batch_records ld)) as [|ev evs] eqn:Htr.
  - destruct (Hnil eq_refl) as [Hc _]. exists new.
    split; [exact Hlk|]. split; [exact Hc|]. split; [exact Hnewp|].
    intros g' s' Hne. rewrite (same_registry_lookup e1 e' _ _ Hsr). apply Hother, Hne.
  - destruct (Hcons ltac:(discriminate)) as (rs & st & err & _ & Hc & _).
    eexists. split; [exact Hlk|]. split; [exact Hc|]. split.
    + apply Forall_app_2; [exact Hnewp|]. apply Forall_app_2;
        [apply Forall_zip_with_pusher|repeat constructor].
    + intros g' s' Hne. rewrite (same_registry_lookup e1 e' _ _ Hsr). apply Hother, Hne.
Qed.

Lemma getLogPusher_next e g s :
  registry_lookup e g s = None ->
  next_pusher (getLogPusher e g s).1 = S (next_pusher e) /\
  (getLogPusher e g s).2 = next_pusher e.
Proof.
  unfold getLogPusher, registry_lookup.
  destruct (groupStreamToPusherMap e !! g) as [l|] eqn:Ho; simpl.
  - destruct (heap e !! l) as [inner|] eqn:Hh; simpl.
    + intros Hi. rewrite Hi. split; reflexivity.
    + intros _. rewrite lookup_empty. split; reflexivity.
  - intros _. rewrite lookup_insert_eq. simpl. rewrite lookup_empty. split; reflexivity.
Qed.

Lemma getLogPusher_ids e g s :
  wf e -> pusher_ids_ok e -> pusher_ids_ok (getLogPusher e g s).1.
Proof.
  intros Hwf [Hlt Hinj].
  destruct (registry_lookup e g s) as [p0|] eqn:Hlk.
  { rewrite (getLogPusher_found e g s p0 Hlk). split; assumption. }
  destruct (getLogPusher_next e g s Hlk) as [Hn Hp].
  pose proof (getLogPusher_lookup_self e g s) as Hself.
  pose proof (getLogPusher_lookup_other e g s) as Hother.
  destruct (getLogPusher e g s) as [e' p]. cbn [fst snd] in *. subst p.
  assert (Hcase : forall g' s' q, registry_lookup e' g' s' = Some q ->
            (g' = g /\ s' = s /\ q = next_pusher e) \/
            ((g' <> g \/ s' <> s) /\ registry_lookup e g' s' = Some q)).
  { intros g' s' q Hq.
    destruct (decide (g' = g /\ s' = s)) as [[-> ->]|Hne].
    - left. rewrite Hself in Hq. injection Hq as <-. auto.
    - right. assert (Hne' : g' <> g \/ s' <> s)
        by (destruct (decide (g' = g)); [right; intros ->; tauto|left; auto]).
      split; [exact Hne'|]. rewrite <- (Hother g' s' Hwf Hne'). exact Hq. }
  split.
  - intros g' s' q Hq. rewrite Hn.
    destruct (Hcase g' s' q Hq) as [(_&_&->)|(_&Hq')]; [lia|].
    specialize (Hlt _ _ _ Hq'). lia.
  - intros g1 s1 g2 s2 q H1 H2.
    destruct (Hcase _ _ _ H1) as [(Hg1&Hs1&Hq1)|(_&H1')];
    destruct (Hcase _ _ _ H2) as [(Hg2&Hs2&Hq2)|(_&H2')].
    + split; congruence.
    + specialize (Hlt _ _ _ H2'). lia.
    + specialize (Hlt _ _ _ H1'). lia.
    + eapply Hinj; eauto.
Qed.

Lemma pusher_ids_ok_frame e e' :
  same_registry e e' -> next_pusher e' = next_pusher e ->
  pusher_ids_ok e -> pusher_ids_ok e'.
Proof.
  intros Hsr Hn [Hlt Hinj]. split.
  - intros g s p. rewrite (same_registry_lookup e e' g s Hsr), Hn. apply Hlt.
  - intros g1 s1 g2 s2 p. rewrite !(same_registry_lookup e e' _ _ Hsr). apply Hinj.
Qed.

Lemma reachable_pusher_ids e : reachable e -> pusher_ids_ok e.
Proof.
  induction 1 as [g s retries now|e e' Hreach IH Hstep].
  - split; intros *; unfold registry_lookup; simpl; rewrite lookup_empty; discriminate.
  - pose proof (reachable_wf e Hreach) as Hwf.
    destruct Hstep as [e g s|e ld|e].
    + apply getLogPusher_ids; assumption.
    + destruct (PushLogs_trace e ld Hwf) as (e1 & p & Hget & _ & Htr).
      pose proof (getLogPusher_ids e (LogGroupName e) (LogStreamName e) Hwf IH) as H1.
      rewrite Hget in H1. cbn [fst] in H1.
      destruct (PushLogs e ld) as [e' r]. destruct Htr as (Hsr & Hn & _).
      exact (pusher_ids_ok_frame e1 e' Hsr Hn H1).
    + pose proof (getLogPusher_ids e (LogGroupName e) (LogStreamName e) Hwf IH) as H1.
      pose proof (getLogPusher_resolved e (LogGroupName e) (LogStreamName e) Hwf) as Hres.
      unfold Shutdown.
      destruct (getLogPusher e (LogGroupName e) (LogStreamName e)) as [e1 p].
      cbn [fst] in H1. destruct Hres as (_&_&[st Hst]).
      pose proof (force_flush_spec e1 p st Hst) as Hff.
      pose proof (force_flush_next e1 p) as Hn.
      destruct (force_flush e1 p) as [e2 err]. destruct Hff as (Hsr & _).
      exact (pusher_ids_ok_frame e1 e2 Hsr Hn H1).
Qed.

(** In every state the exporter reaches, two distinct (group, stream)
    keys are never bound to the same pusher. *)
Theorem registry_pushers_distinct e g1 s1 g2 s2 p :
  reachable e ->
  registry_lookup e g1 s1 = Some p -> registry_lookup e g2 s2 = Some p ->
  g1 = g2 /\ s1 = s2.
Proof.
  intros Hr. apply (proj2 (reachable_pusher_ids e Hr)).
Qed.

(** The lines [PushLogs] logs: one debug line per dropped record; with
    events, the info line, one debug line per append (followed by an
    error line when that append failed, in the order of the [AddLogEntry]
    calls), the success debug line, and the error line exactly when the
    flush failed. *)
Theorem PushLogs_log_lines e ld :
  wf e ->
  let evs := translated (batch_records ld) in
  let n := failed_count (batch_records ld) in
  let '(e', r) := PushLogs e ld in
  (evs = [] -> r = None /\ logger e' = logger e ++ repeat drop_line n) /\
  (evs <> [] ->
   exists p (rs : list (option string)),
     length rs = length evs /\
     (exists pre, calls e' = pre ++
        zip_with (fun ev r => CallAdd p (mkEvent ev (clock e)) r) evs rs ++
        [CallFlush p r]) /\
     logger e' = logger e ++ repeat drop_line n ++
                 [(LInfo, "Putting log events"%string)] ++ add_lines rs ++
                 [(LDebug, "Log events are successfully put"%string)] ++
                 match r with
                 | Some _ => [(LError, "Error force flushing logs. Skipping to next logPusher."%string)]
                 | None => []
                 end).
Proof.
  intros Hwf. cbn zeta.
  destruct (PushLogs_trace e ld Hwf) as (e1 & p & _ & _ & Htr).
  destruct (PushLogs e ld) as [e' r]. destruct Htr as (_ & _ & Hnil & Hcons).
  split.
  - intros Hz. destruct (Hnil Hz) as (_ & Hr & Hl). auto.
  - intros Hz. destruct (Hcons Hz) as (rs & err & Hlen & Hc & <- & _ & Hl).
    exists p, rs. split; [exact Hlen|]. split; [|exact Hl].
    exists (calls e1). exact Hc.
Qed.

End Extras.

(** Below 2^63 ns, a later record never gets an earlier event
    timestamp. *)
Theorem logToCWLog_timestamp_monotone ra1 ra2 log1 log2 ev1 ev2 :
  logToCWLog ra1 log1 = inr ev1 -> logToCWLog ra2 log2 = inr ev2 ->
  0 <= lr_Timestamp log1 <= lr_Timestamp log2 -> lr_Timestamp log2 < 2 ^ 63 ->
  ile_Timestamp ev1 <= ile_Timestamp ev2.
Proof.
  assert (Hts : forall ra log ev, logToCWLog ra log = inr ev ->
            0 <= lr_Timestamp log < 2 ^ 63 ->
            ile_Timestamp ev = lr_Timestamp log / 1000000).
  { intros ra log ev. unfold logToCWLog. destruct (json_marshal_body _); intros Hev; [discriminate|].
    injection Hev as <-. intros Hb. simpl. unfold int64_of_uint64, time_Millisecond.
    rewrite (Z.mod_small (lr_Timestamp log)) by lia.
    destruct (Z.ltb_spec (lr_Timestamp log) (2 ^ 63)); [|lia].
    apply Z.quot_div_nonneg; lia. }
  intros H1 H2 Hle Hlt.
  rewrite (Hts _ _ _ H1) by lia. rewrite (Hts _ _ _ H2) by lia.
  apply Z.div_le_mono; lia.
Qed.

(* ------------------------------------------------------------------ *)
(** ** Concrete runs of the further properties *)

Lemma logToCWLog_ids_witness :
  exists ev fs,
    logToCWLog None
      (mkLogRecord "n" AVEmpty 0 EmptyString 0 0
         [0;0;0;0;0;0;0;0;0;0;0;0;0;0;171;205] [0;0;0;0;0;0;0;0]
         [] 5000000) = inr ev /\
    ile_Message ev = JObject fs /\
    exists s, ("trace_id"%string, JString s) ∈ fs /\
              hex_decode s = Some [0;0;0;0;0;0;0;0;0;0;0;0;0;0;171;205].
Proof.
  match goal with
  | |- exists ev fs, logToCWLog ?ra ?r = inr ev /\ _ =>
      destruct (logToCWLog ra r) as [err|ev] eqn:H;
      [vm_compute in H; discriminate|];
      destruct (logToCWLog_ids ra r ev H) as (fs & Hfs & Ht & _)
  end.
  exists ev, fs. split; [reflexivity|]. split; [exact Hfs|].
  apply Ht; [repeat constructor; lia|reflexivity].
Defined.

Lemma logsToCWLogs_bad_resource_witness :
  let rl := mkRL [("x"%string, AVDouble nan)]
              [mkILL [sample_record "a" (AVInt 1); sample_record "b" (AVInt 2)]] in
  map_finite (attrsValue (rl_Resource rl)) = false /\
  logsToCWLogs [] (sample_batch ++ rl :: sample_batch) =
    (((logsToCWLogs [] (sample_batch ++ sample_batch)).1.1,
      (logsToCWLogs [] (sample_batch ++ sample_batch)).1.2 + 2),
     (logsToCWLogs [] (sample_batch ++ sample_batch)).2 ++ [drop_line; drop_line]) /\
  (logsToCWLogs [] (sample_batch ++ rl :: sample_batch)).1.2 = 4.
Proof.
  cbv zeta.
  match goal with
  | |- map_finite (attrsValue (rl_Resource ?rl)) = false /\ _ =>
      assert (Hbad : map_finite (attrsValue (rl_Resource rl)) = false)
        by (vm_compute; reflexivity);
      pose proof (logsToCWLogs_bad_resource [] sample_batch rl sample_batch Hbad) as Hthm
  end.
  cbv zeta in Hthm.
  split; [exact Hbad|]. rewrite Hthm.
  destruct (logsToCWLogs [] (sample_batch ++ sample_batch)) as [[out d] lg'] eqn:Hl.
  split; [reflexivity|]. simpl.
  assert (Hd : (logsToCWLogs [] (sample_batch ++ sample_batch)).1.2 = 2)
    by (vm_compute; reflexivity).
  rewrite Hl in Hd. simpl in Hd. rewrite Hd. reflexivity.
Defined.

Lemma PushLogs_only_configured_witness :
  let e0 := newExporter (PS := list Event) "g" "s" 0 0 in
  wf e0 /\
  calls (PushLogs e0 sample_batch).1 <> [] /\
  Forall (fun c => call_pusher c = 0%nat) (calls (PushLogs e0 sample_batch).1).
Proof.
  cbv zeta.
  pose proof (PushLogs_only_configured (newExporter (PS := list Event) "g" "s" 0 0)
                sample_batch (newExporter_wf _ _ _ _)) as Hthm.
  cbv zeta in Hthm.
  split; [apply newExporter_wf|].
  destruct (PushLogs _ sample_batch) as [e' r] eqn:Hp.
  destruct Hthm as (p & suffix & Hlk & Hc & Hall & _).
  change e' with (e', r).1 in Hlk. rewrite <- Hp in Hlk. vm_compute in Hlk.
  injection Hlk as <-. cbn [fst]. split.
  - change e' with (e', r).1. rewrite <- Hp. vm_compute. discriminate.
  - rewrite Hc. exact Hall.
Defined.

Lemma registry_pushers_distinct_witness :
  let e := (getLogPusher
              (getLogPusher (newExporter (PS := list Event) "g" "s" 0 0) "g" "s").1
              "g" "t").1 in
  reachable e /\
  registry_lookup e "g" "s" = Some 0%nat /\ registry_lookup e "g" "t" = Some 1%nat /\
  (forall g s, registry_lookup e g s = Some 0%nat -> g = "g"%string /\ s = "s"%string).
Proof.
  cbv zeta.
  match goal with
  | |- reachable ?e /\ _ =>
      assert (Hr : reachable e)
        by (eapply reach_step; [eapply reach_step; [apply reach_new|apply xs_get]|apply xs_get]);
      assert (H0 : registry_lookup e "g" "s" = Some 0%nat) by (vm_compute; reflexivity);
      assert (H1 : registry_lookup e "g" "t" = Some 1%nat) by (vm_compute; reflexivity);
      split; [exact Hr|]; split; [exact H0|]; split; [exact H1|];
      intros g s Hgs; exact (registry_pushers_distinct e g s "g" "s" 0 Hr Hgs H0)
  end.
Defined.

Lemma PushLogs_log_lines_witness :
  let e0 := newExporter (PS := unit) "g" "s" 0 0 in
  wf e0 /\ translated (batch_records sample_batch) <> [] /\
  exists rs : list (option string),
    length rs = 4%nat /\
    logger (PushLogs e0 sample_batch).1 =
      [drop_line; (LInfo, "Putting log events"%string)] ++ add_lines rs ++
      [(LDebug, "Log events are successfully put"%string);
       (LError, "Error force flushing logs. Skipping to next logPusher."%string)].
Proof.
  cbv zeta.
  assert (Hne : translated (batch_records sample_batch) <> []) by (vm_compute; discriminate).
  assert (H4 : length (translated (batch_records sample_batch)) = 4%nat)
    by (vm_compute; reflexivity).
  assert (H1 : failed_count (batch_records sample_batch) = 1%nat)
    by (vm_compute; reflexivity).
  assert (Hr : (PushLogs (newExporter (PS := unit) "g" "s" 0 0) sample_batch).2
               = Some "flush failed"%string) by (vm_compute; reflexivity).
  pose proof (PushLogs_log_lines (newExporter (PS := unit) "g" "s" 0 0) sample_batch
                (newExporter_wf _ _ _ _)) as Hthm.
  cbv zeta in Hthm. rewrite H1 in Hthm.
  split; [apply newExporter_wf|]. split; [exact Hne|].
  destruct (PushLogs _ sample_batch) as [e' r]. cbn [snd] in Hr. subst r.
  destruct Hthm as (_ & Hcons). destruct (Hcons Hne) as (p & rs & Hlen & _ & Hl).
  exists rs. split; [rewrite Hlen; exact H4|]. cbn [fst]. rewrite Hl. reflexivity.
Defined.

Lemma logToCWLog_timestamp_monotone_witness :
  exists ev1 ev2,
    logToCWLog None (sample_record "a" (AVInt 1)) = inr ev1 /\
    logToCWLog None (mkLogRecord "b" (AVInt 2) 0 EmptyString 0 0 [] [] [] 2999999) = inr ev2 /\
    ile_Timestamp ev1 <= ile_Timestamp ev2.
Proof.
  match goal with
  | |- exists ev1 ev2, logToCWLog ?ra1 ?r1 = inr ev1 /\ logToCWLog ?ra2 ?r2 = inr ev2 /\ _ =>
      destruct (logToCWLog ra1 r1) as [err1|ev1] eqn:E1; [vm_compute in E1; discriminate|];
      destruct (logToCWLog ra2 r2) as [err2|ev2] eqn:E2; [vm_compute in E2; discriminate|];
      exists ev1, ev2; split; [reflexivity|]; split; [reflexivity|];
      apply (logToCWLog_timestamp_monotone ra1 ra2 r1 r2 ev1 ev2 E1 E2);
      cbn [lr_Timestamp sample_record]; lia
  end.
Defined.
